(** * stress-tsearch: the tsearch stressor of stress-ng

    A shallow embedding of [src/stress-tsearch.c].  The stressor fills a
    buffer of 32 bit keys, inserts a pointer to every element into a
    binary tree ([tsearch]), looks every element up ([tfind]), removes
    every element ([tdelete]), bumps the bogo-op counter and repeats while
    [keep_stressing] says so.

    Layout of the development:
    - [Key]: the integer arithmetic of the key expression on line 90;
    - [Tree]: the ordered tree behind [tsearch]/[tfind]/[tdelete];
    - [Stressor]: the function [stress_tsearch] itself, as a state passing
      program over an explicit environment of external collaborators,
      with a chronological trace of every external call;
    - the theorems. *)

From stdpp Require Import base numbers option list sets.

#[local] Set Warnings "-clear-no-such-hyp".

(** ** Machine integers *)

Module Key.
Local Open Scope Z_scope.

(** [#define TSEARCH_SIZE_SHIFT (22)] and its companions. [KB] comes from
    [stress-ng.h]. *)
Definition TSEARCH_SIZE_SHIFT : Z := 22.
Definition KB : Z := 1024.
Definition MIN_TSEARCH_SIZE : Z := 1 * KB.
Definition MAX_TSEARCH_SIZE : Z := Z.shiftl 1 TSEARCH_SIZE_SHIFT.
Definition DEFAULT_TSEARCH_SIZE : Z := 64 * KB.

(** Conversion to [int32_t] / [int]: keep the low 32 bits, read them as a
    two's complement number. *)
Definition to_int32 (z : Z) : Z := (z + 2 ^ 31) mod 2 ^ 32 - 2 ^ 31.

(** Conversion to [size_t] / [uint64_t] (64 bit, unsigned). *)
Definition to_size_t (z : Z) : Z := z mod 2 ^ 64.

(** Conversion to [uint16_t], the result type of [stress_mwc16]. *)
Definition to_uint16 (z : Z) : Z := z mod 2 ^ 16.

(** Line 90:
    [(int32_t)(((stress_mwc16() & 0xfff) << TSEARCH_SIZE_SHIFT) ^ i)].
    The masked value is an [int]; the shift is done on [int], where a
    value of up to 12 bits moved up by 22 does not fit: C leaves that
    undefined, the compiled code keeps the low 32 bits, and so does the
    model.  The result is converted to [size_t] for the exclusive or with
    the index [i], and the cast stores the low 32 bits. *)
Definition tsearch_key (r : Z) (i : nat) : Z :=
  let masked := Z.land r 0xfff in
  let shifted := to_int32 (Z.shiftl masked TSEARCH_SIZE_SHIFT) in
  to_int32 (Z.lxor (to_size_t shifted) (to_size_t (Z.of_nat i))).

End Key.

(** ** The ordered tree *)

(** Modelled from the spec: [stress_sort_cmp_int32] lives in [core-sort.h],
    which is not part of the sources at hand.  It is the ordering function
    handed to the tree: a total, strict comparison of two [int32_t] values
    with the usual sign convention of [qsort] callbacks. *)
Definition stress_sort_cmp_int32 (a b : Z) : Z :=
  if (b <? a)%Z then 1%Z else if (a <? b)%Z then (-1)%Z else 0%Z.

(** Reading the key buffer through a key pointer [&data[p]]. *)
Definition deref (data : list Z) (p : nat) : Z := default 0%Z (data !! p).

(** The three entry points of [<search.h>] the stressor calls.  A key is a
    pointer into the key buffer, that is an index; the comparison callback
    reads the buffer through it, so every operation takes the buffer's
    current contents.  [tsearch] is told whether the allocator can hand out
    a node, and answers [None] (the C [NULL]) when it needed one and could
    not get it.  [tfind] answers the key pointer stored in the node it
    found, [tdelete] answers [None] when there was nothing to remove. *)
Record search_h (T : Type) : Type := Search_h {
  null_root : T;
  tsearch : list Z -> nat -> T -> bool -> option nat * T;
  tfind : list Z -> nat -> T -> option nat;
  tdelete : list Z -> nat -> T -> option nat * T
}.
Arguments Search_h {T} _ _ _ _.
Arguments null_root {T} _.
Arguments tsearch {T} _ _ _ _ _.
Arguments tfind {T} _ _ _.
Arguments tdelete {T} _ _ _.

Module Tree.

(** Modelled from the spec: the tree functions come from the C library and
    are not in the sources at hand.  Section 4.2 of the specification
    describes them as an unbalanced binary search tree whose nodes hold a
    non-owning reference to a key-buffer element and at most two children. *)
Inductive node : Type :=
| Nil : node
| Node (left : node) (key : nat) (right : node) : node.

Section WithBuffer.
Variable data : list Z.

(** The comparison callback applied to two key pointers. *)
Definition compar (p q : nat) : Z :=
  stress_sort_cmp_int32 (deref data p) (deref data q).

(** Modelled from the spec: [insert] descends from the root comparing the
    key against each node; an equal node is returned unchanged, otherwise
    a new leaf is allocated and linked where the descent ended.  Without a
    node to allocate the tree is left as it was and nothing is returned. *)
Fixpoint insert (root : node) (k : nat) (alloc_ok : bool) : option nat * node :=
  match root with
  | Nil => if alloc_ok then (Some k, Node Nil k Nil) else (None, Nil)
  | Node l x r =>
      let c := compar k x in
      if (c =? 0)%Z then (Some x, root)
      else if (c <? 0)%Z then
        let '(res, l') := insert l k alloc_ok in (res, Node l' x r)
      else
        let '(res, r') := insert r k alloc_ok in (res, Node l x r')
  end.

(** Modelled from the spec: [find] descends from the root and returns the
    matching node, or the not-found result. *)
Fixpoint find (root : node) (k : nat) : option nat :=
  match root with
  | Nil => None
  | Node l x r =>
      let c := compar k x in
      if (c =? 0)%Z then Some x
      else if (c <? 0)%Z then find l k else find r k
  end.

(** The leftmost key of the non-empty tree [Node l x r], and that tree
    without its leftmost node (whose right child takes its place). *)
Fixpoint delete_min (l : node) (x : nat) (r : node) : nat * node :=
  match l with
  | Nil => (x, r)
  | Node ll lx lr =>
      let '(m, l') := delete_min ll lx lr in (m, Node l' x r)
  end.

(** Removing the root node of [Node l x r]: no child or one child, the
    other subtree takes the place; two children, the in-order successor's
    key reference moves into the node and the successor is unlinked. *)
Definition delete_root (l r : node) : node :=
  match l, r with
  | Nil, _ => r
  | _, Nil => l
  | _, Node rl rx rr => let '(m, r') := delete_min rl rx rr in Node l m r'
  end.

(** Modelled from the spec: [delete] descends to the node matching the
    key and removes it; the answer is the key reference the node held. *)
Fixpoint delete (root : node) (k : nat) : option nat * node :=
  match root with
  | Nil => (None, Nil)
  | Node l x r =>
      let c := compar k x in
      if (c =? 0)%Z then (Some x, delete_root l r)
      else if (c <? 0)%Z then
        let '(res, l') := delete l k in (res, Node l' x r)
      else
        let '(res, r') := delete r k in (res, Node l x r')
  end.

End WithBuffer.

(** In-order list of the key references held by a tree. *)
Fixpoint inorder (t : node) : list nat :=
  match t with
  | Nil => []
  | Node l x r => inorder l ++ x :: inorder r
  end.

(** The ordering invariant of section 3, read through the buffer. *)
Fixpoint bst (data : list Z) (t : node) : Prop :=
  match t with
  | Nil => True
  | Node l x r =>
      bst data l /\ bst data r /\
      Forall (fun y => (deref data y < deref data x)%Z) (inorder l) /\
      Forall (fun y => (deref data x < deref data y)%Z) (inorder r)
  end.

(** The tree as an instance of the [<search.h>] interface. *)
Definition ops : search_h node :=
  Search_h Nil
    (fun data k root alloc_ok => insert data root k alloc_ok)
    (fun data k root => find data root k)
    (fun data k root => delete data root k).

(** Inserting the keys at the indices [ks], in that order, with an
    allocator that never fails. *)
Definition insert_all (data : list Z) (ks : list nat) (t : node) : node :=
  fold_left (fun acc k => (insert data acc k true).2) ks t.

Definition delete_all (data : list Z) (ks : list nat) (t : node) : node :=
  fold_left (fun acc k => (delete data acc k).2) ks t.

End Tree.

(** ** What the stressor expects of the tree library *)

(** The contract of [<search.h>] as far as the stressor relies on it.  A
    tree holds a set of key pointers ([held]) and is in good order for a
    buffer ([sound]), which only depends on the values the held pointers
    point to.
    - The empty tree is the [NULL] root and nothing else.
    - [tsearch] answers a held pointer to an equal value, the given one if
      it had to add it, and changes nothing else; it answers [NULL] only
      when the allocator had no node, and then leaves the tree alone.
    - [tfind] answers a held pointer to an equal value if there is one.
    - [tdelete] takes out what equals the key and answers [NULL] exactly
      when there was nothing to take out. *)
Definition behaves {T : Type} (lib : search_h T) : Prop :=
  exists (sound : list Z -> T -> Prop) (held : T -> list nat),
    (forall d, sound d (null_root lib)) /\
    (forall t, held t = [] <-> t = null_root lib) /\
    (forall d d' t,
       (forall y, y ∈ held t -> deref d' y = deref d y) ->
       sound d t -> sound d' t) /\
    (forall d k t a, sound d t ->
       match tsearch lib d k t a with
       | (Some x, t') =>
           sound d t' /\ deref d x = deref d k /\ (x = k \/ x ∈ held t) /\
           (forall y, y ∈ held t' <-> y ∈ held t \/ y = x)
       | (None, t') => a = false /\ t' = t
       end) /\
    (forall d k t, sound d t ->
       match tfind lib d k t with
       | Some x => x ∈ held t /\ deref d x = deref d k
       | None => forall y, y ∈ held t -> deref d y <> deref d k
       end) /\
    (forall d k t, sound d t ->
       match tdelete lib d k t with
       | (res, t') =>
           sound d t' /\
           (forall y, y ∈ held t' <-> y ∈ held t /\ deref d y <> deref d k) /\
           (res = None <-> forall y, y ∈ held t -> deref d y <> deref d k)
       end).

(** ** The stressor *)

Module Stressor.
Import Key.

(** [EXIT_SUCCESS] is the C library's, [EXIT_NO_RESOURCE] comes from
    [stress-ng.h]; only their being different matters here. *)
Inductive exit_code : Type := EXIT_SUCCESS | EXIT_NO_RESOURCE.

Inductive proc_state : Type := STRESS_STATE_RUN | STRESS_STATE_DEINIT.

(** The texts handed to [pr_fail] and [pr_err], with their arguments. *)
Inductive message : Type :=
| Msg_calloc_failed
| Msg_cannot_allocate_node
| Msg_not_found (i : nat)
| Msg_mismatch (i : nat) (found expecting : Z).

(** One constructor per call that leaves the function. *)
Inductive event : Type :=
| Ev_calloc (n : nat) (ok : bool)
| Ev_set_proc_state (st : proc_state)
| Ev_mwc16 (r : Z)
| Ev_tsearch (i : nat) (res : option nat)
| Ev_tfind (i : nat) (res : option nat)
| Ev_tdelete (i : nat) (res : option nat)
| Ev_keep_stressing_flag (b : bool)
| Ev_keep_stressing (b : bool)
| Ev_inc_counter
| Ev_pr_fail (m : message)
| Ev_pr_err (m : message)
| Ev_free.

(** Everything the function reads from outside: the settings, and what
    each external call answers the k-th time it is made. *)
Record env : Type := Env {
  setting_tsearch_size : option Z;
  opt_flags_maximize : bool;
  opt_flags_minimize : bool;
  opt_flags_verify : bool;
  calloc_ok : bool;
  mwc16 : nat -> Z;
  node_alloc : nat -> bool;
  stressing_flag : nat -> bool;
  stressing : nat -> bool
}.

(** Lines 66-76: the element count. *)
Definition tsearch_size (e : env) : Z :=
  match setting_tsearch_size e with
  | Some v => to_size_t v
  | None =>
      let size := DEFAULT_TSEARCH_SIZE in
      let size := if opt_flags_maximize e then MAX_TSEARCH_SIZE else size in
      if opt_flags_minimize e then MIN_TSEARCH_SIZE else size
  end.

Definition elements (e : env) : nat := Z.to_nat (to_size_t (tsearch_size e)).

Section Run.
Context {T : Type}.
Variable lib : search_h T.
Variable e : env.

(** The variables of [stress_tsearch] ([data], [root]), the bogo-op counter
    behind [args], how often each external source has been asked, and the
    calls made so far, latest first. *)
Record state : Type := State {
  data : list Z;
  root : T;
  counter : nat;
  mwc_calls : nat;
  alloc_calls : nat;
  flag_calls : nat;
  keep_calls : nat;
  log : list event
}.

(** The calls made so far in the order they were made. *)
Definition trace (s : state) : list event := rev (log s).

Definition emit (ev : event) (s : state) : state :=
  State (data s) (root s) (counter s) (mwc_calls s) (alloc_calls s)
        (flag_calls s) (keep_calls s) (ev :: log s).

Definition set_data (d : list Z) (s : state) : state :=
  State d (root s) (counter s) (mwc_calls s) (alloc_calls s)
        (flag_calls s) (keep_calls s) (log s).

Definition set_root (t : T) (s : state) : state :=
  State (data s) t (counter s) (mwc_calls s) (alloc_calls s)
        (flag_calls s) (keep_calls s) (log s).

(** *** External calls *)

Definition stress_mwc16 (s : state) : Z * state :=
  let r := to_uint16 (mwc16 e (mwc_calls s)) in
  (r, emit (Ev_mwc16 r)
        (State (data s) (root s) (counter s) (S (mwc_calls s)) (alloc_calls s)
               (flag_calls s) (keep_calls s) (log s))).

Definition keep_stressing_flag (s : state) : bool * state :=
  let b := stressing_flag e (flag_calls s) in
  (b, emit (Ev_keep_stressing_flag b)
        (State (data s) (root s) (counter s) (mwc_calls s) (alloc_calls s)
               (S (flag_calls s)) (keep_calls s) (log s))).

Definition keep_stressing (s : state) : bool * state :=
  let b := stressing e (keep_calls s) in
  (b, emit (Ev_keep_stressing b)
        (State (data s) (root s) (counter s) (mwc_calls s) (alloc_calls s)
               (flag_calls s) (S (keep_calls s)) (log s))).

Definition inc_counter (s : state) : state :=
  emit Ev_inc_counter
    (State (data s) (root s) (S (counter s)) (mwc_calls s) (alloc_calls s)
           (flag_calls s) (keep_calls s) (log s)).

Definition pr_fail (m : message) (s : state) : state := emit (Ev_pr_fail m) s.
Definition pr_err (m : message) (s : state) : state := emit (Ev_pr_err m) s.
Definition stress_set_proc_state (st : proc_state) (s : state) : state :=
  emit (Ev_set_proc_state st) s.

(** [tsearch(&data[i], &root, stress_sort_cmp_int32)] *)
Definition call_tsearch (i : nat) (s : state) : option nat * state :=
  let '(res, t) := tsearch lib (data s) i (root s) (node_alloc e (alloc_calls s)) in
  (res, emit (Ev_tsearch i res)
          (State (data s) t (counter s) (mwc_calls s) (S (alloc_calls s))
                 (flag_calls s) (keep_calls s) (log s))).

(** [tfind(&data[i], &root, stress_sort_cmp_int32)] *)
Definition call_tfind (i : nat) (s : state) : option nat * state :=
  let res := tfind lib (data s) i (root s) in
  (res, emit (Ev_tfind i res) s).

(** [tdelete(&data[i], &root, stress_sort_cmp_int32)] *)
Definition call_tdelete (i : nat) (s : state) : option nat * state :=
  let '(res, t) := tdelete lib (data s) i (root s) in
  (res, emit (Ev_tdelete i res) (set_root t s)).

(** *** The body of [stress_tsearch] *)

Definition n : nat := elements e.

(** [for (i = from; i < from + count; i++) body] without early exit. *)
Fixpoint for_range (count i : nat) (body : nat -> state -> state) (s : state)
  : state :=
  match count with
  | 0 => s
  | S c => for_range c (S i) body (body i s)
  end.

(** How a cycle ends: normally, or through [goto abort]. *)
Inductive outcome : Type :=
| Done (s : state)
| Aborted (s : state).

(** Lines 96-97: the keys inserted so far are taken out again. *)
Definition cleanup (i : nat) (s : state) : state :=
  for_range i 0 (fun j s => (call_tdelete j s).2) s.

(** Lines 90-99: one round of the populate loop. *)
Definition populate_step (i : nat) (s : state) : outcome :=
  let '(r, s) := stress_mwc16 s in
  let s := set_data (<[i := tsearch_key r i]> (data s)) s in
  let '(res, s) := call_tsearch i s in
  match res with
  | None => Aborted (cleanup i (pr_err Msg_cannot_allocate_node s))
  | Some _ => Done s
  end.

(** Lines 89-100, [count] rounds from index [i] on. *)
Fixpoint populate (count i : nat) (s : state) : outcome :=
  match count with
  | 0 => Done s
  | S c =>
      match populate_step i s with
      | Done s' => populate c (S i) s'
      | Aborted s' => Aborted s'
      end
  end.

(** Lines 105-119: what is done with the result of [tfind]. *)
Definition verify_find (i : nat) (result : option nat) (s : state) : state :=
  if opt_flags_verify e then
    match result with
    | None => pr_fail (Msg_not_found i) s
    | Some p =>
        let val := deref (data s) p in
        if (val =? deref (data s) i)%Z then s
        else pr_fail (Msg_mismatch i val (deref (data s) i)) s
    end
  else s.

Definition find_step (i : nat) (s : state) : state :=
  let '(result, s) := call_tfind i s in verify_find i result s.

(** Lines 102-120: [keep_stressing_flag()] is evaluated before [i < n]. *)
Fixpoint find_phase (count i : nat) (s : state) : state :=
  let '(go, s) := keep_stressing_flag s in
  if go then
    match count with
    | 0 => s
    | S c => find_phase c (S i) (find_step i s)
    end
  else s.

(** Lines 125-128: what is done with the result of [tdelete]. *)
Definition verify_delete (i : nat) (result : option nat) (s : state) : state :=
  if opt_flags_verify e && bool_decide (result = None)
  then pr_fail (Msg_not_found i) s else s.

Definition delete_step (i : nat) (s : state) : state :=
  let '(result, s) := call_tdelete i s in verify_delete i result s.

(** Lines 122-129. *)
Definition delete_phase (s : state) : state := for_range n 0 delete_step s.

(** Lines 86-130: one pass through the body of the do-while loop. *)
Definition cycle (s : state) : outcome :=
  let s := set_root (null_root lib) s in
  match populate n 0 s with
  | Aborted s' => Aborted s'
  | Done s1 => Done (inc_counter (delete_phase (find_phase n 0 s1)))
  end.

(** Lines 85-131.  The loop has no bound of its own; [fuel] bounds the
    number of cycles the model is willing to follow, and [None] means it
    was not enough. *)
Fixpoint do_while (fuel : nat) (s : state) : option state :=
  match fuel with
  | 0 => None
  | S f =>
      match cycle s with
      | Aborted s' => Some s'
      | Done s' =>
          let '(go, s'') := keep_stressing s' in
          if go then do_while f s'' else Some s''
      end
  end.

(** The state on entry: no buffer, no tree, nothing counted or called. *)
Definition initial : state := State [] (null_root lib) 0 0 0 0 0 [].

(** Lines 78-83: the state with which the loop is entered. *)
Definition started : state :=
  stress_set_proc_state STRESS_STATE_RUN
    (set_data (replicate n 0%Z) (emit (Ev_calloc n true) initial)).

(** Lines 64-138.  The final state keeps the last contents of the buffer
    although the buffer has been freed. *)
Definition stress_tsearch (fuel : nat) : option (exit_code * state) :=
  if calloc_ok e then
    match do_while fuel started with
    | None => None
    | Some s =>
        Some (EXIT_SUCCESS,
              emit Ev_free (stress_set_proc_state STRESS_STATE_DEINIT s))
    end
  else
    Some (EXIT_NO_RESOURCE,
          pr_fail Msg_calloc_failed (emit (Ev_calloc n false) initial)).

End Run.

(** *** Reading traces *)

(** The indices handed to the three tree functions, in call order. *)
Definition tsearch_calls (tr : list event) : list nat :=
  omap (fun ev => match ev with Ev_tsearch i _ => Some i | _ => None end) tr.

Definition tfind_calls (tr : list event) : list nat :=
  omap (fun ev => match ev with Ev_tfind i _ => Some i | _ => None end) tr.

Definition tdelete_calls (tr : list event) : list nat :=
  omap (fun ev => match ev with Ev_tdelete i _ => Some i | _ => None end) tr.

(** How often [inc_counter] was called. *)
Definition increments (tr : list event) : nat :=
  length (omap (fun ev => match ev with Ev_inc_counter => Some tt | _ => None end) tr).

(** The lookup phase seen from the cancellation signal: its answers
    ([inl]) and the elements looked up ([inr]), in order. *)
Definition lookup_outline (tr : list event) : list (bool + nat) :=
  omap (fun ev => match ev with
                  | Ev_keep_stressing_flag b => Some (inl b)
                  | Ev_tfind i _ => Some (inr i)
                  | _ => None
                  end) tr.

(** The calls a populate phase makes when no insertion fails. *)
Definition is_populate_event (ev : event) : Prop :=
  match ev with
  | Ev_mwc16 _ | Ev_tsearch _ (Some _) => True
  | _ => False
  end.

(** The calls the lookup phase makes. *)
Definition is_lookup_event (ev : event) : Prop :=
  match ev with
  | Ev_keep_stressing_flag _ | Ev_tfind _ _ | Ev_pr_fail (Msg_not_found _)
  | Ev_pr_fail (Msg_mismatch _ _ _) => True
  | _ => False
  end.

(** The calls the delete phase makes. *)
Definition is_drain_event (ev : event) : Prop :=
  match ev with
  | Ev_tdelete _ _ | Ev_pr_fail (Msg_not_found _) => True
  | _ => False
  end.

(** The calls of a cycle that leaves through [goto abort]. *)
Definition is_abort_event (ev : event) : Prop :=
  match ev with
  | Ev_mwc16 _ | Ev_tsearch _ _ | Ev_pr_err Msg_cannot_allocate_node
  | Ev_tdelete _ _ => True
  | _ => False
  end.

(** The calls of one completed cycle over [n] elements: a populate phase
    that inserts all [n] elements, a lookup phase, a delete phase that
    deletes all [n] elements, then the one call of [inc_counter]. *)
Definition cycle_events (n : nat) (evs : list event) : Prop :=
  exists pop look drain,
    evs = pop ++ look ++ drain ++ [Ev_inc_counter] /\
    Forall is_populate_event pop /\ tsearch_calls pop = seq 0 n /\
    Forall is_lookup_event look /\
    Forall is_drain_event drain /\ tdelete_calls drain = seq 0 n.

(** A completed cycle followed by the evaluation of the loop condition. *)
Definition round_events (n : nat) (evs : list event) : Prop :=
  exists cyc b, evs = cyc ++ [Ev_keep_stressing b] /\ cycle_events n cyc.

(** What a state has in common with an earlier one when only the tree
    and the trace moved. *)
Definition same_buffer {T : Type} (s s' : state (T := T)) : Prop :=
  data s' = data s /\ counter s' = counter s /\
  mwc_calls s' = mwc_calls s /\ alloc_calls s' = alloc_calls s /\
  flag_calls s' = flag_calls s /\ keep_calls s' = keep_calls s.

(** The tree library hands out a node whenever the allocator has one. *)
Definition delivers {T : Type} (lib : search_h T) : Prop :=
  forall d k t, is_Some (tsearch lib d k t true).1.

(** [keep_stressing] permits exactly [K] cycles: it says "go on" after
    each of the first [K - 1] and "stop" after the [K]-th. *)
Definition permits (e : env) (K : nat) : Prop :=
  (forall k, S k < K -> stressing e k = true) /\ stressing e (K - 1) = false.

(** The key the populate phase stores at element [i] when it has made
    [c] draws before the phase began. *)
Definition generated_key (e : env) (c i : nat) : Z :=
  tsearch_key (to_uint16 (mwc16 e (c + i))) i.

(** *** What a cycle hands to the tree library

    A cycle that begins with the buffer [d], after [c] draws and [a]
    requests for a node, written out call by call, to be compared with
    what [cycle] does. *)

(** The buffer at the moment its first [k] elements have been given this
    cycle's keys; the others still hold what they held before. *)
Definition filled (e : env) (c : nat) (d : list Z) (k : nat) : list Z :=
  (generated_key e c <$> seq 0 k) ++ drop k d.

(** The tree before element [i] is inserted: element [j] went into the
    tree of the elements before it, through the buffer that already held
    the key of [j]. *)
Fixpoint grown {T : Type} (lib : search_h T) (e : env) (c a : nat)
    (d : list Z) (i : nat) : T :=
  match i with
  | 0 => null_root lib
  | S j =>
      (tsearch lib (filled e c d (S j)) j (grown lib e c a d j)
         (node_alloc e (a + j))).2
  end.

(** What [tsearch] answers for element [i]. *)
Definition insert_answer {T : Type} (lib : search_h T) (e : env) (c a : nat)
    (d : list Z) (i : nat) : option nat :=
  (tsearch lib (filled e c d (S i)) i (grown lib e c a d i)
     (node_alloc e (a + i))).1.

(** The tree [t] after the elements below [i] have been deleted from it,
    in order, through the buffer [ks]. *)
Fixpoint shrunk {T : Type} (lib : search_h T) (ks : list Z) (t : T)
    (i : nat) : T :=
  match i with
  | 0 => t
  | S j => (tdelete lib ks j (shrunk lib ks t j)).2
  end.

(** What [tdelete] answers for element [i]. *)
Definition delete_answer {T : Type} (lib : search_h T) (ks : list Z) (t : T)
    (i : nat) : option nat :=
  (tdelete lib ks i (shrunk lib ks t i)).1.

(** The messages verification owes for the answer [res] of the lookup of
    element [i]: one when nothing was found, one when the node found holds
    another value, none otherwise. *)
Definition lookup_reports (d : list Z) (i : nat) (res : option nat)
  : list event :=
  match res with
  | None => [Ev_pr_fail (Msg_not_found i)]
  | Some p =>
      if decide (deref d p = deref d i) then []
      else [Ev_pr_fail (Msg_mismatch i (deref d p) (deref d i))]
  end.

(** The messages verification owes for the answer [res] of the deletion
    of element [i]: one when nothing was found. *)
Definition delete_reports (i : nat) (res : option nat) : list event :=
  match res with
  | None => [Ev_pr_fail (Msg_not_found i)]
  | Some _ => []
  end.

(** The calls for element [j] in the three phases. *)
Definition insert_calls {T : Type} (lib : search_h T) (e : env) (c a : nat)
    (d : list Z) (j : nat) : list event :=
  [Ev_mwc16 (to_uint16 (mwc16 e (c + j)));
   Ev_tsearch j (insert_answer lib e c a d j)].

Definition lookup_calls {T : Type} (lib : search_h T) (verify : bool)
    (ks : list Z) (t : T) (j : nat) : list event :=
  [Ev_keep_stressing_flag true; Ev_tfind j (tfind lib ks j t)] ++
  (if verify then lookup_reports ks j (tfind lib ks j t) else []).

Definition delete_calls {T : Type} (lib : search_h T) (verify : bool)
    (ks : list Z) (t : T) (j : nat) : list event :=
  Ev_tdelete j (delete_answer lib ks t j) ::
  (if verify then delete_reports j (delete_answer lib ks t j) else []).

(** A call made after the populate phase reads the buffer [ks]: a lookup
    answers what [tfind] answers on [ks] and the populated tree [t], a
    deletion what [tdelete] answers on [ks] and what is left of [t]; no
    draw and no insertion is made. *)
Definition reads {T : Type} (lib : search_h T) (ks : list Z) (t : T)
    (ev : event) : Prop :=
  match ev with
  | Ev_tfind j r => r = tfind lib ks j t
  | Ev_tdelete j r => r = delete_answer lib ks t j
  | Ev_mwc16 _ | Ev_tsearch _ _ => False
  | _ => True
  end.




(** The answers of [keep_stressing], in call order. *)
Definition keep_answers (tr : list event) : list bool :=
  omap (fun ev => match ev with Ev_keep_stressing b => Some b | _ => None end) tr.

(** A trace without its [pr_fail] messages. *)
Definition without_failures (tr : list event) : list event :=
  omap (fun ev => match ev with Ev_pr_fail _ => None | _ => Some ev end) tr.

(** A call other than [pr_fail]. *)
Definition is_not_failure (ev : event) : Prop :=
  match ev with Ev_pr_fail _ => False | _ => True end.

(** A call made between entering and leaving the loop: anything but
    [calloc], [stress_set_proc_state] and [free]. *)
Definition is_loop_event (ev : event) : Prop :=
  match ev with
  | Ev_calloc _ _ | Ev_set_proc_state _ | Ev_free => False
  | _ => True
  end.

(** A call other than the evaluation of the loop condition. *)
Definition is_not_loop_condition (ev : event) : Prop :=
  match ev with Ev_keep_stressing _ => False | _ => True end.

(** [s'] is reached from [s] by calls that all satisfy [P]. *)
Definition reaches {T : Type} (P : event -> Prop) (s s' : state (T := T))
  : Prop :=
  exists evs, trace s' = trace s ++ evs /\ Forall P evs.

(** The value of element [j] is in the tree, [held] telling which key
    pointers a tree holds. *)
Definition present {T : Type} (held : T -> list nat)
    (s : state (T := T)) (j : nat) : Prop :=
  exists x, x ∈ held (root s) /\ deref (data s) x = deref (data s) j.

(** The tree is in good order and holds the values of the elements below
    [i] through pointers to elements below [i]. *)
Definition covers {T : Type} (sound : list Z -> T -> Prop)
    (held : T -> list nat) (i : nat) (s : state (T := T)) : Prop :=
  sound (data s) (root s) /\
  (forall y, y ∈ held (root s) -> y < i) /\
  (forall j, j < i -> present held s j).

(** Two states that differ at most in the [pr_fail] messages logged. *)
Definition agree {T : Type} (s1 s2 : state (T := T)) : Prop :=
  data s1 = data s2 /\ root s1 = root s2 /\ counter s1 = counter s2 /\
  mwc_calls s1 = mwc_calls s2 /\ alloc_calls s1 = alloc_calls s2 /\
  flag_calls s1 = flag_calls s2 /\ keep_calls s1 = keep_calls s2 /\
  without_failures (log s1) = without_failures (log s2).

Definition agree_outcome {T : Type} (o1 o2 : outcome (T := T)) : Prop :=
  match o1, o2 with
  | Done s1, Done s2 | Aborted s1, Aborted s2 => agree s1 s2
  | _, _ => False
  end.

(** The same environment with the verify flag set to [b]. *)
Definition with_verify (b : bool) (e : env) : env :=
  Env (setting_tsearch_size e) (opt_flags_maximize e) (opt_flags_minimize e)
      b (calloc_ok e) (mwc16 e) (node_alloc e) (stressing_flag e) (stressing e).

End Stressor.

(** A stand-in for the C library whose tree forgets everything: it hands
    out nodes but never finds a key again.  It serves to exercise the
    verification branches, which a working tree never takes. *)
Definition forgetful : search_h unit :=
  Search_h tt
    (fun _ k _ alloc_ok => (if alloc_ok then Some k else None, tt))
    (fun _ _ _ => None)
    (fun _ _ _ => (None, tt)).

(** A stand-in whose lookups answer the pointer to the next element. *)
Definition confused : search_h unit :=
  Search_h tt
    (fun _ k _ alloc_ok => (if alloc_ok then Some k else None, tt))
    (fun _ k _ => Some (S k))
    (fun _ k _ => (Some k, tt)).

(** ** Concrete runs *)

(** Environments for runs at the smallest size the option parser lets
    through: no size set, the minimize flag given, verification on. *)
Module Scenarios.
Import Stressor.

(** A random source: the upper half of a 32 bit multiplicative hash of
    the call number. *)
Definition draw (k : nat) : Z :=
  (((Z.of_nat k * 2654435761) mod 2 ^ 32) / 2 ^ 16)%Z.

(** Everything goes well and [keep_stressing] permits two cycles. *)
Definition two_cycles : env :=
  Env None false true true true draw
      (fun _ => true) (fun _ => true) (fun k => bool_decide (k < 1)).

(** The fourth insertion of the first cycle gets no node. *)
Definition fourth_node_missing : env :=
  Env None false true true true (fun _ => 0%Z)
      (fun k => bool_decide (k < 3)) (fun _ => true) (fun _ => true).

(** [keep_stressing] permits three cycles, but the third insertion of the
    first cycle gets no node. *)
Definition three_permitted_third_node_missing : env :=
  Env None false true true true draw
      (fun k => bool_decide (k < 2)) (fun _ => true)
      (fun k => bool_decide (k < 2)).


(** The key buffer cannot be allocated. *)
Definition no_memory : env :=
  Env None false true true false draw
      (fun _ => true) (fun _ => true) (fun _ => true).



(** A size of zero, which the option parser would not let through but
    the function itself does not refuse; nothing can be allocated. *)
Definition zero_elements : env :=
  Env (Some 0%Z) false false true true draw
      (fun _ => false) (fun _ => true) (fun _ => false).

(** One cycle without verification. *)
Definition unverified : env :=
  Env None false true false true draw
      (fun _ => true) (fun _ => true) (fun _ => false).

(** The buffer of the end-to-end scenario of the specification. *)
Definition eight_keys : list Z := [5; 3; 8; 1; 4; 7; 9; 2]%Z.

End Scenarios.

(** * Properties *)

(** ** The key expression *)

Module KeyFacts.
Import Key.
Local Open Scope Z_scope.

Lemma to_int32_mod (z : Z) (k : Z) :
  0 <= k <= 32 -> to_int32 z mod 2 ^ k = z mod 2 ^ k.
Proof.
  intros Hk. unfold to_int32.
  rewrite (Z.mod_eq (z + 2 ^ 31) (2 ^ 32)) by lia.
  replace (2 ^ 32) with (2 ^ (32 - k) * 2 ^ k)
    by (rewrite <- Z.pow_add_r by lia; f_equal; lia).
  set (q := (z + 2 ^ 31) / (2 ^ (32 - k) * 2 ^ k)).
  replace (z + 2 ^ 31 - 2 ^ (32 - k) * 2 ^ k * q - 2 ^ 31)
    with (z + (- (2 ^ (32 - k) * q)) * 2 ^ k) by lia.
  apply Z_mod_plus_full.
Qed.

Lemma to_size_t_mod (z : Z) (k : Z) :
  0 <= k <= 64 -> to_size_t z mod 2 ^ k = z mod 2 ^ k.
Proof.
  intros Hk. unfold to_size_t.
  rewrite (Z.mod_eq z (2 ^ 64)) by lia.
  replace (2 ^ 64) with (2 ^ (64 - k) * 2 ^ k)
    by (rewrite <- Z.pow_add_r by lia; f_equal; lia).
  set (q := z / (2 ^ (64 - k) * 2 ^ k)).
  replace (z - 2 ^ (64 - k) * 2 ^ k * q)
    with (z + (- (2 ^ (64 - k) * q)) * 2 ^ k) by lia.
  apply Z_mod_plus_full.
Qed.

Lemma lxor_mod_pow2 (a b k : Z) :
  0 <= k -> Z.lxor a b mod 2 ^ k = Z.lxor (a mod 2 ^ k) (b mod 2 ^ k).
Proof.
  intros Hk. apply Z.bits_inj'. intros m Hm.
  rewrite Z.lxor_spec, !Z.testbit_mod_pow2, Z.lxor_spec by lia.
  destruct (m <? k); reflexivity.
Qed.

Lemma shiftl_mod_pow2 (a k : Z) : 0 <= k -> Z.shiftl a k mod 2 ^ k = 0.
Proof.
  intros Hk. rewrite Z.shiftl_mul_pow2 by lia. apply Z_mod_mult.
Qed.

(** The low [TSEARCH_SIZE_SHIFT] bits of a key are its index. *)
Lemma tsearch_key_low_bits (r : Z) (i : nat) :
  Z.of_nat i < 2 ^ TSEARCH_SIZE_SHIFT ->
  tsearch_key r i mod 2 ^ TSEARCH_SIZE_SHIFT = Z.of_nat i.
Proof.
  unfold tsearch_key, TSEARCH_SIZE_SHIFT. intros Hi.
  rewrite to_int32_mod by lia.
  rewrite lxor_mod_pow2 by lia.
  rewrite !to_size_t_mod by lia.
  rewrite to_int32_mod by lia.
  rewrite shiftl_mod_pow2 by lia.
  rewrite Z.lxor_0_l. apply Z.mod_small. lia.
Qed.

(** Keys are 32 bit signed values. *)
Lemma tsearch_key_range (r : Z) (i : nat) :
  - 2 ^ 31 <= tsearch_key r i < 2 ^ 31.
Proof.
  unfold tsearch_key, to_int32.
  match goal with |- context [?a mod 2 ^ 32] =>
    pose proof (Z.mod_pos_bound a (2 ^ 32) ltac:(lia)) end.
  lia.
Qed.

End KeyFacts.

(** ** The ordered tree *)

Module TreeFacts.
Import Tree.
Local Open Scope Z_scope.

Section WithBuffer.
Variable d : list Z.

(** The three ways a comparison can go, with what the tree code tests. *)
Lemma compar_cases (k x : nat) :
  (deref d k = deref d x /\ (compar d k x =? 0) = true) \/
  (deref d k < deref d x /\
     (compar d k x =? 0) = false /\ (compar d k x <? 0) = true) \/
  (deref d x < deref d k /\
     (compar d k x =? 0) = false /\ (compar d k x <? 0) = false).
Proof.
  unfold compar, stress_sort_cmp_int32.
  destruct (Z.ltb_spec (deref d x) (deref d k));
    [right; right; split; [lia | split; reflexivity] |].
  destruct (Z.ltb_spec (deref d k) (deref d x));
    [right; left; split; [lia | split; reflexivity] |].
  left; split; [lia | reflexivity].
Qed.

End WithBuffer.

(** Splits on the comparison of [k] with [x] and rewrites the tests. *)
Ltac case_compar d k x :=
  let Hv := fresh "Hv" in
  let H0 := fresh "H0" in
  let H1 := fresh "H1" in
  destruct (compar_cases d k x) as [[Hv H0] | [[Hv [H0 H1]] | [Hv [H0 H1]]]];
  rewrite ?H0, ?H1.

Section WithBuffer.
Variable d : list Z.

(** *** Insertion and lookup *)

Lemma find_elem (t : node) (k x : nat) :
  find d t k = Some x -> x ∈ inorder t /\ deref d x = deref d k.
Proof.
  induction t as [| l IHl y r IHr]; simpl; [discriminate |].
  case_compar d k y; intros H.
  - injection H as <-. split; [set_solver | congruence].
  - destruct (IHl H). split; [set_solver | assumption].
  - destruct (IHr H). split; [set_solver | assumption].
Qed.

Lemma insert_elem (t : node) (k : nat) (b : bool) (y : nat) :
  y ∈ inorder (insert d t k b).2 -> y = k \/ y ∈ inorder t.
Proof.
  induction t as [| l IHl x r IHr]; simpl.
  - destruct b; simpl; set_solver.
  - case_compar d k x; simpl.
    + set_solver.
    + destruct (insert d l k b) as [res l'] eqn:E; simpl in *. set_solver.
    + destruct (insert d r k b) as [res r'] eqn:E; simpl in *. set_solver.
Qed.

(** With a node to allocate, [insert] never answers [NULL]. *)
Lemma insert_some (t : node) (k : nat) :
  is_Some (insert d t k true).1.
Proof.
  induction t as [| l IHl x r IHr]; simpl; [eauto |].
  case_compar d k x; simpl; [eauto | |].
  - destruct (insert d l k true); assumption.
  - destruct (insert d r k true); assumption.
Qed.

(** The key just inserted is found, at a node holding the same value. *)
Lemma find_insert_same (t : node) (k : nat) :
  exists x, find d (insert d t k true).2 k = Some x /\ deref d x = deref d k.
Proof.
  induction t as [| l IHl x r IHr]; simpl.
  - case_compar d k k; try lia. eauto.
  - case_compar d k x; simpl.
    + rewrite H0. eauto.
    + destruct (insert d l k true) as [res l'] eqn:E; simpl in *.
      rewrite H0, H1. exact IHl.
    + destruct (insert d r k true) as [res r'] eqn:E; simpl in *.
      rewrite H0, H1. exact IHr.
Qed.

(** What was found before an insertion is found after it, at the same
    node. *)
Lemma find_insert_keeps (t : node) (k k' : nat) (b : bool) (x : nat) :
  find d t k' = Some x -> find d (insert d t k b).2 k' = Some x.
Proof.
  induction t as [| l IHl y r IHr]; simpl; [discriminate |].
  case_compar d k y; simpl; [auto | |].
  - destruct (insert d l k b) as [res l'] eqn:E; simpl in *.
    case_compar d k' y; auto.
  - destruct (insert d r k b) as [res r'] eqn:E; simpl in *.
    case_compar d k' y; auto.
Qed.

Lemma find_insert_all_keeps (ks : list nat) (t : node) (k x : nat) :
  find d t k = Some x -> find d (insert_all d ks t) k = Some x.
Proof.
  revert t. induction ks as [| a ks IH]; intros t H; simpl; [exact H |].
  apply IH, find_insert_keeps, H.
Qed.

Lemma find_insert_all (ks : list nat) (t : node) (k : nat) :
  k ∈ ks ->
  exists x, find d (insert_all d ks t) k = Some x /\ deref d x = deref d k.
Proof.
  revert t. induction ks as [| a ks IH]; intros t Hk; [set_solver |].
  apply elem_of_cons in Hk as [-> | Hk]; simpl.
  - destruct (find_insert_same t a) as (x & Hx & Hv).
    exists x. split; [apply find_insert_all_keeps, Hx | exact Hv].
  - apply IH, Hk.
Qed.

Lemma insert_all_elem (ks : list nat) (t : node) (y : nat) :
  y ∈ inorder (insert_all d ks t) -> y ∈ ks \/ y ∈ inorder t.
Proof.
  revert t. induction ks as [| a ks IH]; intros t H; simpl in *; [auto |].
  destruct (IH _ H) as [? | Hy]; [set_solver |].
  apply insert_elem in Hy. set_solver.
Qed.

(** *** The ordering invariant *)

Lemma insert_bst (t : node) (k : nat) (b : bool) :
  bst d t -> bst d (insert d t k b).2.
Proof.
  induction t as [| l IHl x r IHr]; simpl.
  - destruct b; simpl; auto.
  - intros (Hl & Hr & Hlx & Hrx). case_compar d k x; simpl; [auto | |].
    + pose proof (insert_elem l k b) as Hin.
      destruct (insert d l k b) as [res l'] eqn:E; simpl in *.
      repeat split; auto.
      rewrite Forall_forall in *. intros y Hy.
      destruct (Hin y Hy) as [-> | ?]; [lia | auto].
    + pose proof (insert_elem r k b) as Hin.
      destruct (insert d r k b) as [res r'] eqn:E; simpl in *.
      repeat split; auto.
      rewrite Forall_forall in *. intros y Hy.
      destruct (Hin y Hy) as [-> | ?]; [lia | auto].
Qed.

(** *** Removal *)

Lemma inorder_nil (t : node) : inorder t = [] -> t = Nil.
Proof.
  destruct t as [| l x r]; [reflexivity |]. simpl. intros H.
  apply app_eq_nil in H as [_ H]. discriminate.
Qed.

(** [delete_min] splits the in-order sequence into its head and rest. *)
Lemma delete_min_inorder (l : node) (x : nat) (r : node) (m : nat) (t' : node) :
  delete_min l x r = (m, t') -> inorder l ++ x :: inorder r = m :: inorder t'.
Proof.
  revert x r m t'. induction l as [| ll IHll lx lr _]; intros x r m t'; simpl.
  - intros [= <- <-]. reflexivity.
  - destruct (delete_min ll lx lr) as [m' l'] eqn:E. intros [= <- <-].
    simpl. rewrite (IHll _ _ _ _ E). reflexivity.
Qed.

Lemma delete_min_bst (l : node) (x : nat) (r : node) (m : nat) (t' : node) :
  bst d (Node l x r) -> delete_min l x r = (m, t') ->
  bst d t' /\ Forall (fun y => deref d m < deref d y) (inorder t').
Proof.
  revert x r m t'. induction l as [| ll IHll lx lr _]; intros x r m t'.
  - simpl. intros (_ & Hr & _ & Hrx) [= <- <-]. auto.
  - intros (Hl & Hr & Hlx & Hrx). simpl.
    destruct (delete_min ll lx lr) as [m' l'] eqn:E. intros [= <- <-].
    destruct (IHll _ _ _ _ Hl E) as [Hl' Hm].
    simpl in Hlx. rewrite (delete_min_inorder _ _ _ _ _ E) in Hlx.
    apply Forall_cons in Hlx as [Hmx Hlx].
    split; [simpl; auto |].
    simpl. apply Forall_app. split; [exact Hm |].
    apply Forall_cons. split; [exact Hmx |].
    eapply Forall_impl; [exact Hrx |]. simpl. intros. lia.
Qed.

Lemma delete_root_inorder (l r : node) :
  inorder (delete_root l r) = inorder l ++ inorder r.
Proof.
  destruct l as [| ll lx lr]; [reflexivity |].
  destruct r as [| rl rx rr]; [simpl; rewrite app_nil_r; reflexivity |].
  unfold delete_root.
  destruct (delete_min rl rx rr) as [m r'] eqn:E.
  apply delete_min_inorder in E. simpl in *. rewrite E. reflexivity.
Qed.

Lemma delete_root_bst (l r : node) :
  bst d l -> bst d r ->
  (forall y z, y ∈ inorder l -> z ∈ inorder r -> deref d y < deref d z) ->
  bst d (delete_root l r).
Proof.
  intros Hl Hr Hlr.
  destruct l as [| ll lx lr]; [exact Hr |].
  destruct r as [| rl rx rr]; [exact Hl |].
  unfold delete_root.
  destruct (delete_min rl rx rr) as [m r'] eqn:E.
  destruct (delete_min_bst _ _ _ _ _ Hr E) as [Hr' Hm].
  apply delete_min_inorder in E.
  split; [exact Hl | split; [exact Hr' | split; [| exact Hm]]].
  apply Forall_forall. intros y Hy. apply Hlr; [exact Hy |].
  simpl. rewrite E. set_solver.
Qed.

Lemma delete_elem (t : node) (k y : nat) :
  y ∈ inorder (delete d t k).2 -> y ∈ inorder t.
Proof.
  induction t as [| l IHl x r IHr]; simpl; [auto |].
  case_compar d k x; simpl.
  - rewrite delete_root_inorder. set_solver.
  - destruct (delete d l k) as [res l'] eqn:E; simpl in *. set_solver.
  - destruct (delete d r k) as [res r'] eqn:E; simpl in *. set_solver.
Qed.

Lemma delete_bst (t : node) (k : nat) : bst d t -> bst d (delete d t k).2.
Proof.
  induction t as [| l IHl x r IHr]; simpl; [auto |].
  intros (Hl & Hr & Hlx & Hrx). rewrite Forall_forall in Hlx, Hrx.
  case_compar d k x; simpl.
  - apply delete_root_bst; auto.
    intros y z Hy Hz. specialize (Hlx y Hy). specialize (Hrx z Hz). lia.
  - pose proof (delete_elem l k) as Hin.
    destruct (delete d l k) as [res l'] eqn:E; simpl in *.
    repeat split; auto; apply Forall_forall; auto.
  - pose proof (delete_elem r k) as Hin.
    destruct (delete d r k) as [res r'] eqn:E; simpl in *.
    repeat split; auto; apply Forall_forall; auto.
Qed.

(** In a search tree no node with the deleted value is left. *)
Lemma delete_removes (t : node) (k y : nat) :
  bst d t -> y ∈ inorder (delete d t k).2 -> deref d y <> deref d k.
Proof.
  induction t as [| l IHl x r IHr]; simpl; [set_solver |].
  intros (Hl & Hr & Hlx & Hrx). rewrite Forall_forall in Hlx, Hrx.
  case_compar d k x; simpl.
  - rewrite delete_root_inorder. intros Hy.
    apply elem_of_app in Hy as [Hy | Hy];
      [specialize (Hlx y Hy) | specialize (Hrx y Hy)]; lia.
  - pose proof (delete_elem l k y) as Hin.
    destruct (delete d l k) as [res l'] eqn:E; simpl in *. intros Hy.
    apply elem_of_app in Hy as [Hy | Hy]; [auto |].
    apply elem_of_cons in Hy as [-> | Hy]; [lia |].
    specialize (Hrx y Hy). lia.
  - pose proof (delete_elem r k y) as Hin.
    destruct (delete d r k) as [res r'] eqn:E; simpl in *. intros Hy.
    apply elem_of_app in Hy as [Hy | Hy]; [specialize (Hlx y Hy); lia |].
    apply elem_of_cons in Hy as [-> | Hy]; [lia | auto].
Qed.

Lemma delete_all_elem (ks : list nat) (t : node) (y : nat) :
  bst d t -> y ∈ inorder (delete_all d ks t) ->
  y ∈ inorder t /\ forall k, k ∈ ks -> deref d y <> deref d k.
Proof.
  revert t. induction ks as [| a ks IH]; intros t Ht Hy; simpl in *.
  - split; [exact Hy | set_solver].
  - destruct (IH _ (delete_bst t a Ht) Hy) as [Hin Hne].
    split; [eapply delete_elem, Hin |].
    intros k Hk. apply elem_of_cons in Hk as [-> | Hk]; [| auto].
    eapply delete_removes; eauto.
Qed.

(** Drain completeness: taking out every key a search tree holds leaves
    the empty tree. *)
Lemma delete_all_nil (ks : list nat) (t : node) :
  bst d t -> (forall y, y ∈ inorder t -> y ∈ ks) -> delete_all d ks t = Nil.
Proof.
  intros Ht Hks. apply inorder_nil.
  destruct (inorder (delete_all d ks t)) as [| y rest] eqn:E; [reflexivity |].
  destruct (delete_all_elem ks t y Ht) as [Hin Hne];
    [rewrite E; set_solver |].
  exfalso. exact (Hne y (Hks y Hin) eq_refl).
Qed.

End WithBuffer.

(** The end-to-end scenario of the specification: the keys 5, 3, 8, 1, 4,
    7, 9, 2 inserted in that order are held in increasing order; looking
    up 8 finds it; deleting 5, the root with two children, puts its
    in-order successor 7 in its place; deleting all keys empties the
    tree. *)
Example end_to_end_scenario :
  let d := Scenarios.eight_keys in
  let t := insert_all d (seq 0 8) Nil in
  deref d <$> inorder t = [1; 2; 3; 4; 5; 7; 8; 9] /\
  deref d <$> find d t 2 = Some 8 /\
  (delete d t 0).1 = Some 0%nat /\
  match (delete d t 0).2 with
  | Node _ x _ => deref d x = 7
  | Nil => False
  end /\
  deref d <$> inorder (delete d t 0).2 = [1; 2; 3; 4; 7; 8; 9] /\
  delete_all d (seq 0 8) t = Nil /\
  find d (delete_all d (seq 0 8) t) 2 = None.
Proof. vm_compute. repeat split. Qed.

(** The invariant only reads the buffer at the keys the tree holds. *)
Lemma bst_ext (d d' : list Z) (t : node) :
  (forall y, y ∈ inorder t -> deref d y = deref d' y) -> bst d t -> bst d' t.
Proof.
  induction t as [| l IHl x r IHr]; simpl; [auto |].
  intros Hext (Hl & Hr & Hlx & Hrx). rewrite Forall_forall in Hlx, Hrx.
  repeat split.
  - apply IHl; [intros; apply Hext; set_solver | exact Hl].
  - apply IHr; [intros; apply Hext; set_solver | exact Hr].
  - apply Forall_forall. intros y Hy.
    rewrite <- !Hext by set_solver. auto.
  - apply Forall_forall. intros y Hy.
    rewrite <- !Hext by set_solver. auto.
Qed.

End TreeFacts.

(** ** The stressor: phases *)

Module StressorFacts.
Import Key Stressor.

Lemma tdelete_calls_app (a b : list event) :
  tdelete_calls (a ++ b) = tdelete_calls a ++ tdelete_calls b.
Proof. apply omap_app. Qed.

Lemma tfind_calls_app (a b : list event) :
  tfind_calls (a ++ b) = tfind_calls a ++ tfind_calls b.
Proof. apply omap_app. Qed.


Lemma lookup_outline_app (a b : list event) :
  lookup_outline (a ++ b) = lookup_outline a ++ lookup_outline b.
Proof. apply omap_app. Qed.

Lemma increments_app (a b : list event) :
  increments (a ++ b) = increments a + increments b.
Proof. unfold increments. rewrite omap_app. apply length_app. Qed.

Lemma omap_all_none {A B : Type} (f : A -> option B) (l : list A) :
  Forall (fun x => f x = None) l -> omap f l = [].
Proof.
  induction 1 as [| x l Hx _ IH]; [reflexivity |]. simpl.
  rewrite Hx. exact IH.
Qed.

(** Proves that a projection of a trace is empty from the kind of its
    events: [H] is the [Forall] fact about the events. *)
Ltac no_such_call H :=
  apply omap_all_none; eapply Forall_impl; [exact H |];
  intros [] Hev; simpl in *; solve [contradiction | reflexivity].

Lemma populate_no_increment (evs : list event) :
  Forall is_populate_event evs -> increments evs = 0.
Proof.
  induction 1 as [| ev evs Hev _ IH]; [reflexivity |].
  change (ev :: evs) with ([ev] ++ evs). rewrite increments_app, IH.
  destruct ev; simpl in Hev; try contradiction; reflexivity.
Qed.

Lemma lookup_no_increment (evs : list event) :
  Forall is_lookup_event evs -> increments evs = 0.
Proof.
  induction 1 as [| ev evs Hev _ IH]; [reflexivity |].
  change (ev :: evs) with ([ev] ++ evs). rewrite increments_app, IH.
  destruct ev; simpl in Hev; try contradiction; reflexivity.
Qed.


Lemma drain_no_increment (evs : list event) :
  Forall is_drain_event evs -> increments evs = 0.
Proof.
  induction 1 as [| ev evs Hev _ IH]; [reflexivity |].
  change (ev :: evs) with ([ev] ++ evs). rewrite increments_app, IH.
  destruct ev; simpl in Hev; try contradiction; reflexivity.
Qed.

Lemma abort_no_increment (evs : list event) :
  Forall is_abort_event evs -> increments evs = 0.
Proof.
  induction 1 as [| ev evs Hev _ IH]; [reflexivity |].
  change (ev :: evs) with ([ev] ++ evs). rewrite increments_app, IH.
  destruct ev; simpl in Hev; try contradiction; reflexivity.
Qed.

(** A completed cycle calls [inc_counter] once, as its last call. *)
Lemma cycle_events_increments (n : nat) (evs : list event) :
  cycle_events n evs -> increments evs = 1.
Proof.
  intros (pop & look & drain & -> & Hp & _ & Hl & Hd & _).
  rewrite !increments_app, (populate_no_increment _ Hp),
    (lookup_no_increment _ Hl), (drain_no_increment _ Hd).
  reflexivity.
Qed.

Section Run.
Context {T : Type}.
Variable lib : search_h T.
Variable e : env.

Lemma trace_emit (ev : event) (s : state (T := T)) :
  trace (emit ev s) = trace s ++ [ev].
Proof. reflexivity. Qed.

Lemma same_buffer_refl (s : state (T := T)) : same_buffer s s.
Proof. repeat split. Qed.

Lemma same_buffer_trans (s1 s2 s3 : state (T := T)) :
  same_buffer s1 s2 -> same_buffer s2 s3 -> same_buffer s1 s3.
Proof.
  unfold same_buffer. intros (?&?&?&?&?&?) (?&?&?&?&?&?).
  repeat split; congruence.
Qed.

(** *** The delete phase and the clean-up loop *)

Lemma call_tdelete_spec (i : nat) (s : state) :
  let '(res, s') := call_tdelete lib i s in
  same_buffer s s' /\
  trace s' = trace s ++ [Ev_tdelete i res] /\
  (res, root s') = tdelete lib (data s) i (root s).
Proof.
  unfold call_tdelete. destruct (tdelete lib (data s) i (root s)) as [res t].
  repeat split.
Qed.

Lemma delete_step_spec (i : nat) (s : state) :
  same_buffer s (delete_step lib e i s) /\
  root (delete_step lib e i s) = (tdelete lib (data s) i (root s)).2 /\
  exists evs,
    trace (delete_step lib e i s) = trace s ++ evs /\
    Forall is_drain_event evs /\ tdelete_calls evs = [i].
Proof.
  unfold delete_step. pose proof (call_tdelete_spec i s) as H.
  destruct (call_tdelete lib i s) as [res s1]. destruct H as (Hb & Htr & Hres).
  unfold verify_delete.
  destruct (opt_flags_verify e && bool_decide (res = None)) eqn:Hv.
  - split; [exact Hb |]. split; [simpl; rewrite <- Hres; reflexivity |].
    exists [Ev_tdelete i res; Ev_pr_fail (Msg_not_found i)].
    unfold pr_fail. rewrite trace_emit, Htr, <- app_assoc.
    repeat split. repeat constructor.
  - split; [exact Hb |]. split; [rewrite <- Hres; reflexivity |].
    exists [Ev_tdelete i res]. repeat split; [exact Htr |].
    repeat constructor.
Qed.

Lemma delete_range_spec (count i : nat) (s : state) :
  let s' := for_range count i (delete_step lib e) s in
  same_buffer s s' /\
  exists evs,
    trace s' = trace s ++ evs /\
    Forall is_drain_event evs /\ tdelete_calls evs = seq i count.
Proof.
  revert i s. induction count as [| c IH]; intros i s; simpl.
  - split; [apply same_buffer_refl |]. exists [].
    rewrite app_nil_r. repeat split. constructor.
  - destruct (delete_step_spec i s) as (Hb1 & _ & evs1 & Ht1 & Hd1 & Hc1).
    destruct (IH (S i) (delete_step lib e i s)) as (Hb2 & evs2 & Ht2 & Hd2 & Hc2).
    split; [eapply same_buffer_trans; eassumption |].
    exists (evs1 ++ evs2). rewrite Ht2, Ht1, <- app_assoc.
    split; [reflexivity |]. split; [apply Forall_app; auto |].
    rewrite tdelete_calls_app, Hc1, Hc2. reflexivity.
Qed.

Lemma cleanup_spec (i : nat) (s : state) :
  same_buffer s (cleanup lib i s) /\
  exists evs,
    trace (cleanup lib i s) = trace s ++ evs /\
    Forall is_abort_event evs /\ tdelete_calls evs = seq 0 i /\
    length evs = i.
Proof.
  unfold cleanup. generalize 0 as j. revert s.
  induction i as [| c IH]; intros s j; simpl.
  - split; [apply same_buffer_refl |]. exists [].
    rewrite app_nil_r. repeat split. constructor.
  - pose proof (call_tdelete_spec j s) as H.
    destruct (call_tdelete lib j s) as [res s1]. destruct H as (Hb1 & Ht1 & _).
    destruct (IH s1 (S j)) as (Hb2 & evs2 & Ht2 & Hd2 & Hc2 & Hl2). simpl.
    split; [eapply same_buffer_trans; eassumption |].
    exists (Ev_tdelete j res :: evs2). rewrite Ht2, Ht1, <- app_assoc.
    split; [reflexivity |]. split; [constructor; [exact I | exact Hd2] |].
    split; [simpl; f_equal; exact Hc2 | simpl; f_equal; exact Hl2].
Qed.

(** *** The lookup phase *)

Lemma verify_find_spec (i : nat) (result : option nat) (s : state (T := T)) :
  same_buffer s (verify_find e i result s) /\
  root (verify_find e i result s) = root s /\
  exists evs,
    trace (verify_find e i result s) = trace s ++ evs /\
    Forall is_lookup_event evs /\ lookup_outline evs = [] /\
    tfind_calls evs = [].
Proof.
  assert (Hskip : same_buffer s s /\ root s = root s /\
    exists evs, trace s = trace s ++ evs /\
      Forall is_lookup_event evs /\ lookup_outline evs = [] /\
      tfind_calls evs = []).
  { split; [apply same_buffer_refl |]. split; [reflexivity |].
    exists []. rewrite app_nil_r. repeat split. constructor. }
  assert (Hfail : forall m, is_lookup_event (Ev_pr_fail m) ->
    same_buffer s (pr_fail m s) /\ root (pr_fail m s) = root s /\
    exists evs, trace (pr_fail m s) = trace s ++ evs /\
      Forall is_lookup_event evs /\ lookup_outline evs = [] /\
      tfind_calls evs = []).
  { intros m Hm. split; [repeat split |]. split; [reflexivity |].
    exists [Ev_pr_fail m]. repeat split. repeat constructor. exact Hm. }
  unfold verify_find.
  destruct (opt_flags_verify e); [| exact Hskip].
  destruct result as [p |]; [| apply Hfail; exact I].
  destruct (deref (data s) p =? deref (data s) i)%Z; [exact Hskip |].
  apply Hfail. exact I.
Qed.

Lemma find_step_spec (i : nat) (s : state) :
  same_buffer s (find_step lib e i s) /\
  root (find_step lib e i s) = root s /\
  exists evs,
    trace (find_step lib e i s) = trace s ++ evs /\
    Forall is_lookup_event evs /\ lookup_outline evs = [inr i] /\
    tfind_calls evs = [i].
Proof.
  unfold find_step, call_tfind.
  set (res := tfind lib (data s) i (root s)).
  destruct (verify_find_spec i res (emit (Ev_tfind i res) s))
    as (Hb & Hr & evs & Ht & Hf & Ho & Hc).
  split; [exact Hb |]. split; [exact Hr |].
  exists (Ev_tfind i res :: evs). rewrite Ht, trace_emit, <- app_assoc.
  split; [reflexivity |]. split; [constructor; [exact I | exact Hf] |].
  split; [simpl; f_equal; exact Ho | simpl; f_equal; exact Hc].
Qed.

(** However the cancellation signal answers, the lookup phase only moves
    the count of its consultations and the trace. *)
Lemma find_phase_frame (count i : nat) (s : state) :
  let s' := find_phase lib e count i s in
  data s' = data s /\ root s' = root s /\ counter s' = counter s /\
  mwc_calls s' = mwc_calls s /\ alloc_calls s' = alloc_calls s /\
  keep_calls s' = keep_calls s /\
  exists evs, trace s' = trace s ++ evs /\ Forall is_lookup_event evs.
Proof.
  revert i s. induction count as [| c IH]; intros i s; simpl.
  - do 6 (split; [destruct (stressing_flag e (flag_calls s)); reflexivity |]).
    exists [Ev_keep_stressing_flag (stressing_flag e (flag_calls s))].
    split; [destruct (stressing_flag e (flag_calls s)); reflexivity |].
    repeat constructor.
  - destruct (stressing_flag e (flag_calls s)).
    + set (s1 := emit _ _).
      destruct (find_step_spec i s1)
        as ((?&?&?&?&?&?) & Hr1 & evs1 & Ht1 & Hf1 & _).
      destruct (IH (S i) (find_step lib e i s1))
        as (?&?&?&?&?&?& evs2 & Ht2 & Hf2).
      do 6 (split; [simpl in *; congruence |]).
      exists (Ev_keep_stressing_flag true :: evs1 ++ evs2).
      rewrite Ht2, Ht1. subst s1. rewrite trace_emit, <- !app_assoc.
      split; [reflexivity |]. constructor; [exact I |]. apply Forall_app; auto.
    + do 6 (split; [reflexivity |]).
      exists [Ev_keep_stressing_flag false]. split; [reflexivity |].
      repeat constructor.
Qed.

(** The lookup phase in detail: when the signal says "go on" [m] times
    and then, before element [i + m], "stop" (or the elements run out),
    exactly the elements from [i] to [i + m - 1] are looked up, each
    right after one consultation of the signal. *)
Lemma find_phase_outline (count i m : nat) (s : state) :
  m <= count ->
  (forall j, j < m -> stressing_flag e (flag_calls s + j) = true) ->
  (m < count -> stressing_flag e (flag_calls s + m) = false) ->
  let s' := find_phase lib e count i s in
  flag_calls s' = flag_calls s + m + 1 /\
  exists evs,
    trace s' = trace s ++ evs /\
    tfind_calls evs = seq i m /\
    lookup_outline evs =
      flat_map (fun j => [inl true; inr j]) (seq i m) ++
      [inl (stressing_flag e (flag_calls s + m))].
Proof.
  revert i m s. induction count as [| c IH]; intros i m s Hm Htrue Hfalse.
  - assert (m = 0) as -> by lia. simpl. rewrite Nat.add_0_r.
    split; [destruct (stressing_flag e (flag_calls s)); simpl; lia |].
    exists [Ev_keep_stressing_flag (stressing_flag e (flag_calls s))].
    destruct (stressing_flag e (flag_calls s)); repeat split.
  - destruct m as [| m].
    + assert (H0 : stressing_flag e (flag_calls s) = false)
        by (rewrite <- Hfalse by lia; f_equal; lia).
      simpl. rewrite Nat.add_0_r, !H0.
      split; [simpl; lia |]. exists [Ev_keep_stressing_flag false].
      repeat split.
    + assert (H0 : stressing_flag e (flag_calls s) = true)
        by (rewrite <- (Htrue 0) by lia; f_equal; lia).
      simpl. rewrite !H0.
      set (s1 := emit _ _).
      destruct (find_step_spec i s1)
        as ((?&?&?&?&Hfl&?) & Hr1 & evs1 & Ht1 & _ & Ho1 & Hc1).
      assert (Hfl1 : flag_calls (find_step lib e i s1) = S (flag_calls s))
        by (rewrite Hfl; reflexivity).
      destruct (IH (S i) m (find_step lib e i s1)) as (Hfc & evs2 & Ht2 & Hc2 & Ho2).
      * lia.
      * intros j Hj. rewrite Hfl1.
        replace (S (flag_calls s) + j) with (flag_calls s + S j) by lia.
        apply Htrue. lia.
      * intros Hlt. rewrite Hfl1.
        replace (S (flag_calls s) + m) with (flag_calls s + S m) by lia.
        apply Hfalse. lia.
      * split; [rewrite Hfc, Hfl1; lia |].
        exists (Ev_keep_stressing_flag true :: evs1 ++ evs2).
        rewrite Ht2, Ht1. subst s1. rewrite trace_emit, <- !app_assoc.
        split; [reflexivity |].
        split; [simpl; rewrite tfind_calls_app, Hc1, Hc2; reflexivity |].
        simpl. rewrite lookup_outline_app, Ho1, Ho2, Hfl1. simpl.
        rewrite Nat.add_succ_r. reflexivity.
Qed.

(** For every behaviour of the signal there is such an [m]. *)
Lemma scan_length_exists (count c : nat) :
  exists m, m <= count /\
    (forall j, j < m -> stressing_flag e (c + j) = true) /\
    (m < count -> stressing_flag e (c + m) = false).
Proof.
  revert c. induction count as [| k IH]; intros c.
  - exists 0. repeat split; intros; lia.
  - destruct (stressing_flag e c) eqn:Hc.
    + destruct (IH (S c)) as (m & Hm & Ht & Hf).
      exists (S m). split; [lia |]. split.
      * intros [| j] Hj; [rewrite Nat.add_0_r; exact Hc |].
        replace (c + S j) with (S c + j) by lia. apply Ht. lia.
      * intros Hlt. replace (c + S m) with (S c + m) by lia. apply Hf. lia.
    + exists 0. split; [lia |]. split; [intros; lia |].
      intros _. rewrite Nat.add_0_r. exact Hc.
Qed.

(** *** The populate phase *)

Lemma populate_step_done (i : nat) (s s' : state) :
  populate_step lib e i s = Done s' ->
  data s' = <[i := tsearch_key (to_uint16 (mwc16 e (mwc_calls s))) i]> (data s) /\
  counter s' = counter s /\
  mwc_calls s' = S (mwc_calls s) /\ alloc_calls s' = S (alloc_calls s) /\
  flag_calls s' = flag_calls s /\ keep_calls s' = keep_calls s /\
  exists p,
    tsearch lib (data s') i (root s) (node_alloc e (alloc_calls s))
      = (Some p, root s') /\
    trace s' = trace s ++
      [Ev_mwc16 (to_uint16 (mwc16 e (mwc_calls s))); Ev_tsearch i (Some p)].
Proof.
  unfold populate_step, stress_mwc16, call_tsearch.
  cbn [data root alloc_calls emit set_data].
  destruct (tsearch lib _ i (root s) _) as [[p |] t] eqn:E; [| discriminate].
  intros [= <-].
  do 6 (split; [reflexivity |]). exists p. split; [exact E |].
  unfold trace. simpl. rewrite <- app_assoc. reflexivity.
Qed.

Lemma populate_step_aborted (i : nat) (s s' : state) :
  populate_step lib e i s = Aborted s' ->
  counter s' = counter s /\ keep_calls s' = keep_calls s /\
  exists clean,
    trace s' = trace s ++
      [Ev_mwc16 (to_uint16 (mwc16 e (mwc_calls s))); Ev_tsearch i None;
       Ev_pr_err Msg_cannot_allocate_node] ++ clean /\
    Forall is_abort_event clean /\
    tdelete_calls clean = seq 0 i /\ length clean = i.
Proof.
  unfold populate_step, stress_mwc16, call_tsearch.
  cbn [data root alloc_calls emit set_data].
  destruct (tsearch lib _ i (root s) _) as [[p |] t] eqn:E; [discriminate |].
  intros [= <-].
  match goal with |- context [cleanup lib i ?s0] =>
    destruct (cleanup_spec i s0)
      as ((_ & Hc & _ & _ & _ & Hk) & clean & Ht & Hf & Hd & Hl)
  end.
  split; [rewrite Hc; reflexivity |]. split; [rewrite Hk; reflexivity |].
  exists clean. rewrite Ht. split; [| auto].
  unfold pr_err. rewrite trace_emit. unfold trace. simpl.
  rewrite <- !app_assoc. reflexivity.
Qed.

(** A populate phase that runs to completion. *)
Lemma populate_done (count i : nat) (s s' : state) :
  populate lib e count i s = Done s' ->
  counter s' = counter s /\
  flag_calls s' = flag_calls s /\ keep_calls s' = keep_calls s /\
  mwc_calls s' = mwc_calls s + count /\
  alloc_calls s' = alloc_calls s + count /\
  length (data s') = length (data s) /\
  (forall j, i <= j < i + count -> j < length (data s) ->
     data s' !! j =
       Some (tsearch_key (to_uint16 (mwc16 e (mwc_calls s + (j - i)))) j)) /\
  (forall j, j < i \/ i + count <= j -> data s' !! j = data s !! j) /\
  exists evs,
    trace s' = trace s ++ evs /\
    Forall is_populate_event evs /\
    tsearch_calls evs = seq i count.
Proof.
  revert i s. induction count as [| c IH]; intros i s; simpl.
  - intros [= <-]. rewrite !Nat.add_0_r.
    do 6 (split; [reflexivity |]). split; [intros; lia |].
    split; [reflexivity |]. exists []. rewrite app_nil_r.
    repeat split. constructor.
  - destruct (populate_step lib e i s) as [s1 |] eqn:E1; [| discriminate].
    intros H.
    destruct (populate_step_done i s s1 E1)
      as (Hd1 & Hc1 & Hm1 & Ha1 & Hf1 & Hk1 & p & _ & Ht1).
    destruct (IH (S i) s1 H)
      as (Hc2 & Hf2 & Hk2 & Hm2 & Ha2 & Hl2 & Hin & Hout & evs & Ht2 & Hb & Hs).
    assert (Hlen : length (data s1) = length (data s))
      by (rewrite Hd1; apply length_insert).
    split; [congruence |]. split; [congruence |]. split; [congruence |].
    split; [lia |]. split; [lia |]. split; [congruence |].
    split; [| split].
    + intros j Hj Hlt. destruct (decide (j = i)) as [-> | Hne].
      * rewrite Hout by lia. rewrite Hd1, Nat.sub_diag, Nat.add_0_r.
        apply list_lookup_insert_eq. exact Hlt.
      * rewrite Hin by lia. rewrite Hm1. do 4 f_equal. lia.
    + intros j Hj. rewrite Hout by lia. rewrite Hd1.
      apply list_lookup_insert_ne. lia.
    + eexists (_ :: _ :: evs). rewrite Ht2, Ht1, <- app_assoc.
      split; [reflexivity |].
      split; [constructor; [exact I |]; constructor; [exact I | exact Hb] |].
      simpl. f_equal. exact Hs.
Qed.

(** A populate phase that leaves through [goto abort]: the failing call
    is the one for some element [j], and the clean-up loop then calls
    [tdelete] for the elements before [j], nothing else. *)
Lemma populate_aborted (count i : nat) (s s' : state) :
  populate lib e count i s = Aborted s' ->
  counter s' = counter s /\ keep_calls s' = keep_calls s /\
  exists j pre clean,
    i <= j < i + count /\
    trace s' = trace s ++ pre ++
      [Ev_tsearch j None; Ev_pr_err Msg_cannot_allocate_node] ++ clean /\
    Forall is_abort_event pre /\ tdelete_calls pre = [] /\
    tsearch_calls pre = seq i (j - i) /\
    Forall is_abort_event clean /\
    tdelete_calls clean = seq 0 j /\ length clean = j.
Proof.
  revert i s. induction count as [| c IH]; intros i s; simpl; [discriminate |].
  destruct (populate_step lib e i s) as [s1 | s1] eqn:E1.
  - intros H.
    destruct (populate_step_done i s s1 E1)
      as (_ & Hc1 & _ & _ & _ & Hk1 & p & _ & Ht1).
    destruct (IH (S i) s1 H)
      as (Hc2 & Hk2 & j & pre & clean & Hj & Ht2 & Hp & Hpd & Hps & Hcl & Hcd & Hcn).
    split; [congruence |]. split; [congruence |].
    exists j, (Ev_mwc16 (to_uint16 (mwc16 e (mwc_calls s)))
               :: Ev_tsearch i (Some p) :: pre), clean.
    split; [lia |]. rewrite Ht2, Ht1, <- !app_assoc.
    split; [reflexivity |].
    split; [constructor; [exact I |]; constructor; [exact I | exact Hp] |].
    split; [exact Hpd |].
    split; [| auto].
    simpl. rewrite Hps. replace (j - i) with (S (j - S i)) by lia. reflexivity.
  - intros [= <-].
    destruct (populate_step_aborted i s s1 E1)
      as (Hc & Hk & clean & Ht & Hf & Hd & Hl).
    split; [exact Hc |]. split; [exact Hk |].
    exists i, [Ev_mwc16 (to_uint16 (mwc16 e (mwc_calls s)))], clean.
    split; [lia |]. split; [exact Ht |].
    split; [repeat constructor |]. split; [reflexivity |].
    rewrite Nat.sub_diag. auto.
Qed.

(** *** One cycle *)

(** A cycle that completes: the buffer holds the keys generated from this
    cycle's draws, all [n] elements were deleted again, and the counter
    went up by one, as the last thing the cycle did. *)
Lemma cycle_done (s s' : state) :
  cycle lib e s = Done s' ->
  counter s' = S (counter s) /\
  keep_calls s' = keep_calls s /\
  mwc_calls s' = mwc_calls s + n e /\
  alloc_calls s' = alloc_calls s + n e /\
  length (data s') = length (data s) /\
  (forall j, j < n e -> j < length (data s) ->
     data s' !! j = Some (generated_key e (mwc_calls s) j)) /\
  exists evs,
    trace s' = trace s ++ evs /\ cycle_events (n e) evs.
Proof.
  unfold cycle.
  destruct (populate lib e (n e) 0 (set_root (null_root lib) s))
    as [s1 |] eqn:E1; [| discriminate].
  intros [= <-].
  destruct (populate_done _ _ _ _ E1)
    as (Hc1 & _ & Hk1 & Hm1 & Ha1 & Hl1 & Hin & _ & pop & Ht1 & Hb1 & Hs1).
  destruct (find_phase_frame (n e) 0 s1)
    as (Hd2 & _ & Hc2 & Hm2 & Ha2 & Hk2 & look & Ht2 & Hb2).
  destruct (delete_range_spec (n e) 0 (find_phase lib e (n e) 0 s1))
    as ((Hd3 & Hc3 & Hm3 & Ha3 & _ & Hk3) & drain & Ht3 & Hb3 & Hdel).
  fold (delete_phase lib e (find_phase lib e (n e) 0 s1)) in *.
  cbn [counter keep_calls mwc_calls alloc_calls data inc_counter emit].
  simpl in Hc1, Hk1, Hm1, Ha1, Hl1, Ht1.
  split; [congruence |]. split; [congruence |]. split; [congruence |].
  split; [congruence |]. split; [congruence |]. split.
  - intros j Hj Hlt. rewrite Hd3, Hd2. unfold generated_key.
    rewrite Hin by (simpl; lia). simpl. rewrite Nat.sub_0_r. reflexivity.
  - exists (pop ++ look ++ drain ++ [Ev_inc_counter]).
    split.
    + unfold inc_counter. rewrite trace_emit.
      change (trace (State _ _ _ _ _ _ _ (log ?x))) with (trace x).
      rewrite Ht3, Ht2, Ht1, <- !app_assoc. reflexivity.
    + exists pop, look, drain. split; [reflexivity |]. auto 10.
Qed.



(** A cycle that leaves through [goto abort] does not touch the counter
    and never reaches the loop condition. *)
Lemma cycle_aborted (s s' : state) :
  cycle lib e s = Aborted s' ->
  counter s' = counter s /\ keep_calls s' = keep_calls s /\
  exists evs, trace s' = trace s ++ evs /\ Forall is_abort_event evs.
Proof.
  unfold cycle.
  destruct (populate lib e (n e) 0 (set_root (null_root lib) s))
    as [| s1] eqn:E1; [discriminate |].
  intros [= <-].
  destruct (populate_aborted _ _ _ _ E1)
    as (Hc & Hk & j & pre & clean & _ & Ht & Hp & _ & _ & Hcl & _ & _).
  split; [exact Hc |]. split; [exact Hk |].
  eexists. split; [exact Ht |].
  apply Forall_app. split; [exact Hp |].
  constructor; [exact I |]. constructor; [exact I | exact Hcl].
Qed.

(** *** The loop *)

(** Whatever the tree library answers, a run of the loop is a sequence of
    completed cycles, each followed by one evaluation of the loop
    condition, and possibly the calls of one aborted cycle at the end; the
    counter has gone up by the number of completed cycles. *)
Lemma do_while_rounds (fuel : nat) (s s' : state) :
  do_while lib e fuel s = Some s' ->
  exists rounds tail,
    trace s' = trace s ++ concat rounds ++ tail /\
    Forall (round_events (n e)) rounds /\
    Forall is_abort_event tail /\
    counter s' = counter s + length rounds /\
    keep_calls s' = keep_calls s + length rounds.
Proof.
  revert s. induction fuel as [| f IH]; intros s; simpl; [discriminate |].
  destruct (cycle lib e s) as [s1 | s1] eqn:E1.
  - destruct (cycle_done s s1 E1) as (Hc & Hk & _ & _ & _ & _ & evs & Ht & Hcyc).
    set (s2 := emit _ _).
    assert (Ht2 : trace s2 = trace s ++ evs ++
                    [Ev_keep_stressing (stressing e (keep_calls s1))])
      by (subst s2; rewrite trace_emit; unfold trace at 1; simpl;
          fold (trace s1); rewrite Ht, <- app_assoc; reflexivity).
    assert (Hround : round_events (n e)
              (evs ++ [Ev_keep_stressing (stressing e (keep_calls s1))]))
      by (eexists _, _; split; [reflexivity | exact Hcyc]).
    destruct (stressing e (keep_calls s1)).
    + intros H. destruct (IH _ H) as (rounds & tail & Ht' & Hr & Hta & Hc' & Hk').
      exists ((evs ++ [Ev_keep_stressing true]) :: rounds), tail.
      rewrite Ht', Ht2. simpl. rewrite <- !app_assoc.
      split; [reflexivity |]. split; [constructor; assumption |].
      split; [exact Hta |]. subst s2. simpl in *. lia.
    + intros [= <-].
      exists [evs ++ [Ev_keep_stressing false]], [].
      rewrite Ht2. simpl. rewrite !app_nil_r.
      split; [reflexivity |]. split; [constructor; [assumption | constructor] |].
      split; [constructor |]. subst s2. simpl. lia.
  - intros [= <-].
    destruct (cycle_aborted s s1 E1) as (Hc & Hk & evs & Ht & Hab).
    exists [], evs. simpl. split; [exact Ht |]. split; [constructor |].
    split; [exact Hab |]. lia.
Qed.


(** *** Runs without allocation failure *)

(** With a library and an allocator that deliver, the populate phase
    completes. *)
Lemma populate_completes (count i : nat) (s : state) :
  delivers lib ->
  (forall k, alloc_calls s <= k < alloc_calls s + count -> node_alloc e k = true) ->
  exists s', populate lib e count i s = Done s'.
Proof.
  intros Hlib. revert i s.
  induction count as [| c IH]; intros i s Hok; simpl; [eauto |].
  destruct (populate_step lib e i s) as [s1 | s1] eqn:E1.
  - apply IH. intros k Hk.
    apply populate_step_done in E1 as (_ & _ & _ & Ha & _). apply Hok. lia.
  - exfalso. revert E1. unfold populate_step, stress_mwc16, call_tsearch.
    cbn [data root alloc_calls emit set_data].
    rewrite Hok by lia.
    match goal with |- context [tsearch lib ?d i ?t true] =>
      destruct (Hlib d i t) as [p Hp];
      destruct (tsearch lib d i t true) as [res t'] end.
    simpl in Hp. subst res. discriminate.
Qed.

Lemma cycle_completes (s : state) :
  delivers lib ->
  (forall k, alloc_calls s <= k < alloc_calls s + n e -> node_alloc e k = true) ->
  exists s', cycle lib e s = Done s'.
Proof.
  intros Hlib Hok. unfold cycle.
  destruct (populate_completes (n e) 0 (set_root (null_root lib) s) Hlib Hok)
    as [s1 E1].
  rewrite E1. eauto.
Qed.

(** The loop when no insertion fails and the loop condition says "go on"
    [K - 1] times and then "stop": [K] completed cycles, each followed by
    one evaluation of the loop condition, and nothing else. *)
Lemma do_while_permitted (K : nat) :
  forall (fuel : nat) (s : state),
  delivers lib ->
  1 <= K -> K <= fuel ->
  (forall k, node_alloc e k = true) ->
  (forall k, S k < K -> stressing e (keep_calls s + k) = true) ->
  stressing e (keep_calls s + (K - 1)) = false ->
  exists s' rounds,
    do_while lib e fuel s = Some s' /\
    counter s' = counter s + K /\
    mwc_calls s' = mwc_calls s + K * n e /\
    trace s' = trace s ++ concat rounds /\
    length rounds = K /\ Forall (round_events (n e)) rounds.
Proof.
  induction K as [| K IH]; intros fuel s Hlib HK Hfuel Hok Hgo Hstop; [lia |].
  destruct fuel as [| f]; [lia |]. simpl.
  destruct (cycle_completes s Hlib (fun k _ => Hok k)) as (s1 & E1).
  rewrite E1.
  destruct (cycle_done _ _ E1) as (Hc & Hk & Hm & _ & _ & _ & evs & Ht & Hcyc).
  set (s2 := emit _ _).
  assert (Ht2 : trace s2 = trace s ++ evs ++
                  [Ev_keep_stressing (stressing e (keep_calls s1))])
    by (subst s2; rewrite trace_emit; unfold trace at 1; simpl;
        fold (trace s1); rewrite Ht, <- app_assoc; reflexivity).
  assert (Hround : round_events (n e)
            (evs ++ [Ev_keep_stressing (stressing e (keep_calls s1))]))
    by (eexists _, _; split; [reflexivity | exact Hcyc]).
  destruct K as [| K].
  - simpl in Hstop. rewrite Nat.add_0_r, <- Hk in Hstop.
    rewrite Hstop in *.
    exists s2, [evs ++ [Ev_keep_stressing false]].
    split; [reflexivity |]. split; [subst s2; simpl; lia |].
    split; [subst s2; simpl; lia |].
    rewrite Ht2. simpl. rewrite app_nil_r.
    split; [reflexivity |]. split; [reflexivity |].
    constructor; [exact Hround | constructor].
  - assert (Hgo0 : stressing e (keep_calls s1) = true)
      by (rewrite Hk, <- (Hgo 0) by lia; f_equal; lia).
    rewrite Hgo0 in *.
    destruct (IH f s2) as (s' & rounds & Hrun & Hc' & Hm' & Ht' & Hlen & Hall).
    + exact Hlib.
    + lia.
    + lia.
    + exact Hok.
    + intros k Hlt. subst s2. cbn [keep_calls emit]. rewrite Hk.
      match goal with |- stressing e ?a = _ =>
        replace a with (keep_calls s + S k) by lia end.
      apply Hgo. lia.
    + subst s2. cbn [keep_calls emit]. rewrite Hk.
      match goal with |- stressing e ?a = _ =>
        replace a with (keep_calls s + (S (S K) - 1)) by lia end.
      exact Hstop.
    + exists s', ((evs ++ [Ev_keep_stressing true]) :: rounds).
      split; [exact Hrun |]. split; [subst s2; simpl in *; lia |].
      split; [subst s2; simpl in *; lia |].
      rewrite Ht', Ht2. simpl. rewrite <- !app_assoc.
      split; [reflexivity |]. split; [simpl; lia |].
      constructor; assumption.
Qed.

End Run.

(** ** The stressor over the ordered tree *)

Lemma tree_delivers : delivers Tree.ops.
Proof. intros d k t. apply TreeFacts.insert_some. Qed.

Section OverTree.
Variable e : env.

Lemma deref_insert_ne (d : list Z) (i y : nat) (v : Z) :
  y <> i -> deref (<[i := v]> d) y = deref d y.
Proof.
  intros Hne. unfold deref. rewrite list_lookup_insert_ne by auto. reflexivity.
Qed.

(** The populate phase keeps the tree a search tree over the elements
    stored so far. *)
Lemma populate_bst (count i : nat) (s s' : state) :
  Tree.bst (data s) (root s) ->
  Forall (fun y => y < i) (Tree.inorder (root s)) ->
  populate Tree.ops e count i s = Done s' ->
  Tree.bst (data s') (root s') /\
  Forall (fun y => y < i + count) (Tree.inorder (root s')).
Proof.
  revert i s. induction count as [| c IH]; intros i s Hbst Hlt; simpl.
  - intros [= <-]. rewrite Nat.add_0_r. auto.
  - destruct (populate_step Tree.ops e i s) as [s1 |] eqn:E1; [| discriminate].
    intros H.
    destruct (populate_step_done _ _ _ _ _ E1) as (Hd & _ & _ & _ & _ & _ & p & Hins & _).
    simpl in Hins. rewrite Forall_forall in Hlt.
    assert (Hroot : root s1 = (Tree.insert (data s1) (root s) i
                                 (node_alloc e (alloc_calls s))).2)
      by (rewrite Hins; reflexivity).
    replace (i + S c) with (S i + c) by lia.
    apply (IH (S i) s1); [| | exact H].
    + rewrite Hroot. apply TreeFacts.insert_bst.
      apply (TreeFacts.bst_ext (data s)); [| exact Hbst].
      intros y Hy. rewrite Hd. symmetry. apply deref_insert_ne.
      specialize (Hlt y Hy). lia.
    + apply Forall_forall. intros y Hy. rewrite Hroot in Hy.
      apply TreeFacts.insert_elem in Hy as [-> | Hy]; [lia |].
      specialize (Hlt y Hy). lia.
Qed.

(** The delete phase removes the keys of all its elements, in order. *)
Lemma delete_range_root (count i : nat) (s : state) :
  root (for_range count i (delete_step Tree.ops e) s) =
    Tree.delete_all (data s) (seq i count) (root s).
Proof.
  revert i s. induction count as [| c IH]; intros i s; simpl; [reflexivity |].
  destruct (delete_step_spec Tree.ops e i s) as ((Hd & _) & Hr & _).
  rewrite IH, Hd, Hr. reflexivity.
Qed.

(** A completed cycle over the tree leaves the tree empty. *)
Lemma cycle_root (s s' : state) :
  cycle Tree.ops e s = Done s' -> root s' = Tree.Nil.
Proof.
  unfold cycle.
  destruct (populate Tree.ops e (n e) 0 (set_root (null_root Tree.ops) s))
    as [s1 |] eqn:E1; [| discriminate].
  intros [= <-].
  destruct (populate_bst (n e) 0 (set_root (null_root Tree.ops) s) s1)
    as [Hbst Hlt]; [exact I | constructor | exact E1 |].
  destruct (find_phase_frame Tree.ops e (n e) 0 s1) as (Hd2 & Hr2 & _).
  cbn [root inc_counter emit]. unfold delete_phase.
  rewrite delete_range_root, Hd2, Hr2.
  apply TreeFacts.delete_all_nil; [exact Hbst |].
  intros y Hy. rewrite Forall_forall in Hlt. specialize (Hlt y Hy).
  apply elem_of_seq. lia.
Qed.

(** When no node allocation fails, the loop over the tree ends with the
    tree empty. *)
Lemma do_while_root (fuel : nat) (s s' : state) :
  (forall k, node_alloc e k = true) ->
  do_while Tree.ops e fuel s = Some s' -> root s' = Tree.Nil.
Proof.
  intros Hok. revert s. induction fuel as [| f IH]; intros s; simpl;
    [discriminate |].
  destruct (cycle_completes Tree.ops e s tree_delivers (fun k _ => Hok k))
    as [s1 E1].
  rewrite E1. pose proof (cycle_root _ _ E1) as Hr.
  destruct (stressing e (keep_calls s1)).
  - apply IH.
  - intros [= <-]. exact Hr.
Qed.

End OverTree.

End StressorFacts.

(** * A cycle call by call *)

Module Script.
Import Key Stressor.

Lemma filled_step (e : env) (c : nat) (d : list Z) (i : nat) :
  i < length d ->
  <[i := generated_key e c i]> (filled e c d i) = filled e c d (S i).
Proof.
  intros Hi. unfold filled.
  destruct (lookup_lt_is_Some_2 d i Hi) as [x Hx].
  rewrite (drop_S d x i Hx), seq_S, fmap_app, <- app_assoc.
  rewrite insert_app_r_alt by (rewrite length_fmap, length_seq; lia).
  rewrite length_fmap, length_seq, Nat.sub_diag. reflexivity.
Qed.

Lemma filled_all (e : env) (c : nat) (d : list Z) :
  filled e c d (length d) = generated_key e c <$> seq 0 (length d).
Proof. unfold filled. rewrite drop_all, app_nil_r. reflexivity. Qed.

(** The buffer [tsearch] reads for element [i] holds the key of [i]. *)
Lemma filled_lookup (e : env) (c : nat) (d : list Z) (i : nat) :
  filled e c d (S i) !! i = Some (generated_key e c i).
Proof.
  unfold filled.
  rewrite lookup_app_l by (rewrite length_fmap, length_seq; lia).
  rewrite list_lookup_fmap, lookup_seq_lt by lia. reflexivity.
Qed.

Section Run.
Context {T : Type}.
Variable lib : search_h T.
Variable e : env.

(** ** The populate phase *)

Lemma populate_script (c a : nat) (d : list Z) (count i : nat)
    (s s' : state) :
  i + count <= length d ->
  data s = filled e c d i -> root s = grown lib e c a d i ->
  mwc_calls s = c + i -> alloc_calls s = a + i ->
  populate lib e count i s = Done s' ->
  data s' = filled e c d (i + count) /\
  root s' = grown lib e c a d (i + count) /\
  trace s' = trace s ++ flat_map (insert_calls lib e c a d) (seq i count).
Proof.
  revert i s. induction count as [| k IH]; intros i s Hlen Hd Hr Hm Ha;
    cbn [populate seq flat_map].
  - intros [= <-]. rewrite Nat.add_0_r, app_nil_r. auto.
  - destruct (populate_step lib e i s) as [s1 | s1] eqn:E1; [| discriminate].
    intros H.
    destruct (StressorFacts.populate_step_done lib e i s s1 E1)
      as (Hd1 & _ & Hm1 & Ha1 & _ & _ & p & Hts & Ht1).
    assert (Hd1' : data s1 = filled e c d (S i)).
    { rewrite Hd1, Hd, Hm. apply (filled_step e c d i). lia. }
    rewrite Hd1', Hr, Ha in Hts.
    assert (Hr1 : root s1 = grown lib e c a d (S i))
      by (cbn [grown]; rewrite Hts; reflexivity).
    assert (Hans : insert_answer lib e c a d i = Some p)
      by (unfold insert_answer; rewrite Hts; reflexivity).
    destruct (IH (S i) s1) as (Hd2 & Hr2 & Ht2);
      [lia | exact Hd1' | exact Hr1 | lia | lia | exact H |].
    rewrite Nat.add_succ_r. split; [exact Hd2 |]. split; [exact Hr2 |].
    rewrite Ht2, Ht1, Hm. unfold insert_calls. rewrite Hans.
    rewrite <- app_assoc. reflexivity.
Qed.

(** ** The lookup phase *)

Lemma find_step_script (i : nat) (s : state) :
  trace (find_step lib e i s) =
    trace s ++
    Ev_tfind i (tfind lib (data s) i (root s)) ::
    (if opt_flags_verify e
     then lookup_reports (data s) i (tfind lib (data s) i (root s))
     else []).
Proof.
  unfold find_step, call_tfind, verify_find, lookup_reports, pr_fail.
  destruct (opt_flags_verify e); [| reflexivity].
  destruct (tfind lib (data s) i (root s)) as [p |].
  - cbn [data emit].
    destruct (Z.eqb_spec (deref (data s) p) (deref (data s) i)) as [Heq | Hne].
    + rewrite decide_True by exact Heq. reflexivity.
    + rewrite decide_False by exact Hne.
      rewrite !StressorFacts.trace_emit, <- app_assoc. reflexivity.
  - rewrite !StressorFacts.trace_emit, <- app_assoc. reflexivity.
Qed.

Lemma find_phase_script (count i m : nat) (s : state) :
  m <= count ->
  (forall j, j < m -> stressing_flag e (flag_calls s + j) = true) ->
  (m < count -> stressing_flag e (flag_calls s + m) = false) ->
  trace (find_phase lib e count i s) =
    trace s ++
    flat_map (lookup_calls lib (opt_flags_verify e) (data s) (root s))
      (seq i m) ++
    [Ev_keep_stressing_flag (stressing_flag e (flag_calls s + m))].
Proof.
  revert i m s. induction count as [| c IH]; intros i m s Hm Htrue Hfalse.
  - assert (m = 0) as -> by lia. simpl. rewrite Nat.add_0_r.
    destruct (stressing_flag e (flag_calls s)); reflexivity.
  - destruct m as [| m].
    + assert (H0 : stressing_flag e (flag_calls s) = false)
        by (rewrite <- Hfalse by lia; f_equal; lia).
      simpl. rewrite Nat.add_0_r, !H0. reflexivity.
    + assert (H0 : stressing_flag e (flag_calls s) = true)
        by (rewrite <- (Htrue 0) by lia; f_equal; lia).
      simpl. rewrite !H0.
      set (s1 := emit _ _).
      destruct (StressorFacts.find_step_spec lib e i s1)
        as ((Hd & _ & _ & _ & Hfl & _) & Hr1 & _).
      assert (Hfl1 : flag_calls (find_step lib e i s1) = S (flag_calls s))
        by (rewrite Hfl; reflexivity).
      rewrite (IH (S i) m (find_step lib e i s1)).
      * rewrite Hd, Hr1, Hfl1, find_step_script.
        subst s1. rewrite StressorFacts.trace_emit.
        cbn [data root emit]. unfold lookup_calls at 2.
        rewrite Nat.add_succ_r. simpl. rewrite <- !app_assoc. reflexivity.
      * lia.
      * intros j Hj. rewrite Hfl1.
        replace (S (flag_calls s) + j) with (flag_calls s + S j) by lia.
        apply Htrue. lia.
      * intros Hlt. rewrite Hfl1.
        replace (S (flag_calls s) + m) with (flag_calls s + S m) by lia.
        apply Hfalse. lia.
Qed.

(** ** The delete phase *)

Lemma delete_step_script (i : nat) (s : state) :
  trace (delete_step lib e i s) =
    trace s ++
    Ev_tdelete i (tdelete lib (data s) i (root s)).1 ::
    (if opt_flags_verify e
     then delete_reports i (tdelete lib (data s) i (root s)).1
     else []).
Proof.
  unfold delete_step, call_tdelete, verify_delete, delete_reports, pr_fail.
  destruct (tdelete lib (data s) i (root s)) as [res t]. simpl.
  destruct (opt_flags_verify e); [| reflexivity].
  destruct res as [p |]; simpl; [reflexivity |].
  rewrite !StressorFacts.trace_emit, <- app_assoc. reflexivity.
Qed.

Lemma delete_range_script (d : list Z) (t : T) (count i : nat) (s : state) :
  data s = d -> root s = shrunk lib d t i ->
  let s' := for_range count i (delete_step lib e) s in
  root s' = shrunk lib d t (i + count) /\
  trace s' =
    trace s ++ flat_map (delete_calls lib (opt_flags_verify e) d t) (seq i count).
Proof.
  revert i s. induction count as [| c IH]; intros i s Hd Hr; simpl.
  - rewrite Nat.add_0_r, app_nil_r. auto.
  - destruct (StressorFacts.delete_step_spec lib e i s)
      as ((Hd1 & _) & Hr1 & _).
    destruct (IH (S i) (delete_step lib e i s)) as (Hr2 & Ht2).
    + rewrite Hd1. exact Hd.
    + rewrite Hr1, Hd, Hr. reflexivity.
    + rewrite Nat.add_succ_r. split; [exact Hr2 |].
      rewrite Ht2, delete_step_script, Hd, Hr.
      unfold delete_calls at 2, delete_answer.
      rewrite <- app_assoc. reflexivity.
Qed.

(** ** The cycle *)

(** A cycle whose populate phase completed, after that phase. *)
Lemma cycle_after_populate (s s1 : state) (m : nat) :
  populate lib e (n e) 0 (set_root (null_root lib) s) = Done s1 ->
  m <= n e ->
  (forall j, j < m -> stressing_flag e (flag_calls s + j) = true) ->
  (m < n e -> stressing_flag e (flag_calls s + m) = false) ->
  exists s',
    cycle lib e s = Done s' /\
    data s' = data s1 /\
    root s' = shrunk lib (data s1) (root s1) (n e) /\
    counter s' = S (counter s) /\
    mwc_calls s' = mwc_calls s1 /\
    flag_calls s' = flag_calls s + S m /\
    trace s' =
      trace s1 ++
      flat_map (lookup_calls lib (opt_flags_verify e) (data s1) (root s1))
        (seq 0 m) ++
      [Ev_keep_stressing_flag (stressing_flag e (flag_calls s + m))] ++
      flat_map (delete_calls lib (opt_flags_verify e) (data s1) (root s1))
        (seq 0 (n e)) ++
      [Ev_inc_counter].
Proof.
  intros H Hm Hgo Hstop.
  destruct (StressorFacts.populate_done lib e _ _ _ _ H)
    as (Hc1 & Hf1 & _).
  simpl in Hc1, Hf1. rewrite <- Hf1 in Hgo, Hstop.
  set (looked := find_phase lib e (n e) 0 s1).
  destruct (StressorFacts.find_phase_frame lib e (n e) 0 s1)
    as (Hd2 & Hr2 & Hc2 & Hm2 & _).
  destruct (StressorFacts.find_phase_outline lib e (n e) 0 m s1 Hm Hgo Hstop)
    as (Hf2 & _).
  pose proof (find_phase_script (n e) 0 m s1 Hm Hgo Hstop) as Ht2.
  fold looked in Hd2, Hr2, Hc2, Hm2, Hf2, Ht2.
  destruct (StressorFacts.delete_range_spec lib e (n e) 0 looked)
    as ((Hd3 & Hc3 & Hm3 & _ & Hf3 & _) & _).
  destruct (delete_range_script (data s1) (root s1) (n e) 0 looked Hd2 Hr2)
    as (Hr3 & Ht3).
  exists (inc_counter (delete_phase lib e looked)).
  split; [unfold cycle; rewrite H; reflexivity |].
  unfold delete_phase. cbn [data root counter mwc_calls flag_calls inc_counter emit].
  split; [congruence |]. split; [exact Hr3 |].
  split; [rewrite Hc3, Hc2, Hc1; reflexivity |].
  split; [congruence |].
  split; [rewrite Hf3, Hf2, Hf1; lia |].
  unfold trace at 1. simpl.
  change (rev (log (for_range (n e) 0 (delete_step lib e) looked)))
    with (trace (for_range (n e) 0 (delete_step lib e) looked)).
  rewrite Ht3, Ht2, Hf1, <- !app_assoc. reflexivity.
Qed.


(** ** The loop *)


(** ** What the calls after the populate phase read *)

Lemma lookup_calls_reads (v : bool) (ks : list Z) (t : T) (l : list nat) :
  Forall (reads lib ks t) (flat_map (lookup_calls lib v ks t) l) /\
  tdelete_calls (flat_map (lookup_calls lib v ks t) l) = [].
Proof.
  induction l as [| j l [IH1 IH2]]; [split; [constructor | reflexivity] |].
  cbn [flat_map]. rewrite StressorFacts.tdelete_calls_app, IH2.
  assert (Hrep : Forall (reads lib ks t)
                   (if v then lookup_reports ks j (tfind lib ks j t) else []) /\
                 tdelete_calls
                   (if v then lookup_reports ks j (tfind lib ks j t) else [])
                 = []).
  { destruct v; [| split; [constructor | reflexivity]].
    unfold lookup_reports. destruct (tfind lib ks j t) as [p |].
    - destruct (decide (deref ks p = deref ks j));
        (split; [repeat constructor | reflexivity]).
    - split; [repeat constructor | reflexivity]. }
  destruct Hrep as [Hr1 Hr2]. unfold lookup_calls. split.
  - apply Forall_app. split; [| exact IH1].
    constructor; [exact I |]. constructor; [reflexivity | exact Hr1].
  - cbn [app]. change (tdelete_calls (?a :: ?b :: ?r)) with (tdelete_calls r).
    rewrite Hr2. reflexivity.
Qed.

Lemma delete_calls_reads (v : bool) (ks : list Z) (t : T) (i k : nat) :
  Forall (reads lib ks t) (flat_map (delete_calls lib v ks t) (seq i k)) /\
  tdelete_calls (flat_map (delete_calls lib v ks t) (seq i k)) = seq i k.
Proof.
  revert i. induction k as [| k IH]; intros i;
    [split; [constructor | reflexivity] |].
  destruct (IH (S i)) as [IH1 IH2]. cbn [seq flat_map].
  rewrite StressorFacts.tdelete_calls_app, IH2.
  assert (Hrep : Forall (reads lib ks t)
                   (if v then delete_reports i (delete_answer lib ks t i)
                    else []) /\
                 tdelete_calls
                   (if v then delete_reports i (delete_answer lib ks t i)
                    else []) = []).
  { destruct v; [| split; [constructor | reflexivity]].
    unfold delete_reports. destruct (delete_answer lib ks t i);
      (split; [repeat constructor | reflexivity]). }
  destruct Hrep as [Hr1 Hr2]. unfold delete_calls. split.
  - apply Forall_app. split; [| exact IH1].
    constructor; [reflexivity | exact Hr1].
  - change (tdelete_calls (Ev_tdelete i ?a :: ?r))
      with (i :: tdelete_calls r).
    rewrite Hr2. reflexivity.
Qed.

End Run.

End Script.

(** * Main results *)

Import Key Stressor.

Lemma NoDup_fmap_inj_on {A B : Type} (f : A -> B) (l : list A) (x y : A) :
  NoDup (f <$> l) -> x ∈ l -> y ∈ l -> f x = f y -> x = y.
Proof.
  induction l as [| a l IH]; [set_solver |].
  rewrite fmap_cons, NoDup_cons. intros [Hnotin Hnd] Hx Hy Hf.
  apply elem_of_cons in Hx as [-> | Hx]; apply elem_of_cons in Hy as [-> | Hy].
  - reflexivity.
  - exfalso. apply Hnotin. rewrite Hf. apply list_elem_of_fmap_2, Hy.
  - exfalso. apply Hnotin. rewrite <- Hf. apply list_elem_of_fmap_2, Hx.
  - apply IH; assumption.
Qed.

Lemma rounds_increments (n0 : nat) (rounds : list (list event)) :
  Forall (round_events n0) rounds ->
  increments (concat rounds) = length rounds.
Proof.
  intros H. induction H as [| r rounds (cyc & b & -> & Hcyc) _ IH];
    [reflexivity |].
  simpl. rewrite !StressorFacts.increments_app, IH.
  rewrite (StressorFacts.cycle_events_increments _ _ Hcyc). reflexivity.
Qed.

(** The buffer a completed populate phase leaves behind. *)
Lemma populate_buffer {T : Type} (lib : search_h T) (e : env) (s s1 : state) :
  length (data s) = n e ->
  populate lib e (n e) 0 s = Done s1 ->
  data s1 = generated_key e (mwc_calls s) <$> seq 0 (n e).
Proof.
  intros Hlen H.
  destruct (StressorFacts.populate_done lib e _ _ _ _ H)
    as (_ & _ & _ & _ & _ & Hl & Hin & _).
  apply list_eq. intros j. rewrite list_lookup_fmap.
  destruct (decide (j < n e)) as [Hj | Hj].
  - rewrite Hin by lia. rewrite lookup_seq_lt by lia. simpl.
    unfold generated_key. rewrite Nat.sub_0_r. reflexivity.
  - rewrite lookup_ge_None_2 by lia.
    rewrite lookup_ge_None_2 by (rewrite length_seq; lia). reflexivity.
Qed.

(** X1. Lines 89-100.  The buffer a completed populate phase leaves
    behind holds no value twice, when the element count is in the
    supported range. *)
Lemma populate_buffer_distinct
    {T : Type} (lib : search_h T) (e : env) (s s1 : state) :
  (MIN_TSEARCH_SIZE <= Z.of_nat (n e) <= MAX_TSEARCH_SIZE)%Z ->
  length (data s) = n e ->
  populate lib e (n e) 0 s = Done s1 ->
  NoDup (data s1).
Proof.
  intros [_ HN] Hlen H.
  change MAX_TSEARCH_SIZE with (2 ^ TSEARCH_SIZE_SHIFT)%Z in HN.
  rewrite (populate_buffer lib e s s1 Hlen H).
  apply NoDup_fmap_2_strong; [| apply NoDup_seq].
  intros i j Hi Hj Heq. apply elem_of_seq in Hi, Hj.
  apply (f_equal (fun z => z mod 2 ^ TSEARCH_SIZE_SHIFT)%Z) in Heq.
  unfold generated_key in Heq.
  rewrite !KeyFacts.tsearch_key_low_bits in Heq by lia. lia.
Qed.

(** C1. For every element count [N] in the supported range
    [MIN_TSEARCH_SIZE .. MAX_TSEARCH_SIZE] and every sequence [r] of 16 bit
    values the random source may return, the keys
    [((r_i & 0xfff) << 22) ^ i], computed as the code computes them, are
    pairwise distinct over the indices below [N]. *)
Theorem keys_pairwise_distinct (N : nat) (r : nat -> Z) (i j : nat) :
  (MIN_TSEARCH_SIZE <= Z.of_nat N <= MAX_TSEARCH_SIZE)%Z ->
  (forall k, 0 <= r k < 2 ^ 16)%Z ->
  i < N -> j < N -> i <> j ->
  tsearch_key (r i) i <> tsearch_key (r j) j.
Proof.
  intros [_ HN] _ Hi Hj Hne Heq.
  change MAX_TSEARCH_SIZE with (2 ^ TSEARCH_SIZE_SHIFT)%Z in HN.
  apply (f_equal (fun z => z mod 2 ^ TSEARCH_SIZE_SHIFT)%Z) in Heq.
  rewrite !KeyFacts.tsearch_key_low_bits in Heq by lia. lia.
Qed.

Lemma keys_pairwise_distinct_witness :
  tsearch_key 43981 7 <> tsearch_key 43981 1023.
Proof.
  apply (keys_pairwise_distinct 1024 (fun _ => 43981%Z) 7 1023).
  - vm_compute. split; discriminate.
  - intros _. lia.
  - lia.
  - lia.
  - lia.
Defined.

(** C2, evaluated on the code.  When the fourth insertion of the first
    cycle gets no node, the function reports the error, deletes the keys of
    the elements 0, 1 and 2, leaves the loop, and returns [EXIT_SUCCESS]
    with the counter at zero. *)
Theorem node_allocation_failure_returns_success :
  (fun r => (r.1, counter r.2, trace r.2))
    <$> stress_tsearch Tree.ops Scenarios.fourth_node_missing 1 =
  Some (EXIT_SUCCESS, 0,
        [Ev_calloc 1024 true; Ev_set_proc_state STRESS_STATE_RUN;
         Ev_mwc16 0; Ev_tsearch 0 (Some 0);
         Ev_mwc16 0; Ev_tsearch 1 (Some 1);
         Ev_mwc16 0; Ev_tsearch 2 (Some 2);
         Ev_mwc16 0; Ev_tsearch 3 None;
         Ev_pr_err Msg_cannot_allocate_node;
         Ev_tdelete 0 (Some 0); Ev_tdelete 1 (Some 1); Ev_tdelete 2 (Some 2);
         Ev_set_proc_state STRESS_STATE_DEINIT; Ev_free]).
Proof. vm_compute. reflexivity. Qed.

(** C6. For every buffer and every list [ks] of key pointers whose values
    are pairwise distinct, in whatever order: after inserting all of them
    into the empty tree, looking up any of them finds the node that holds
    that very pointer, hence exactly its value. *)
Theorem insert_then_find (d : list Z) (ks : list nat) (k : nat) :
  NoDup (deref d <$> ks) -> k ∈ ks ->
  Tree.find d (Tree.insert_all d ks Tree.Nil) k = Some k /\
  deref d <$> Tree.find d (Tree.insert_all d ks Tree.Nil) k = Some (deref d k).
Proof.
  intros Hnd Hk.
  destruct (TreeFacts.find_insert_all d ks Tree.Nil k Hk) as (x & Hx & Hv).
  assert (x = k) as ->.
  { apply (NoDup_fmap_inj_on (deref d) ks); [exact Hnd | | exact Hk | exact Hv].
    apply TreeFacts.find_elem in Hx as [Hin _].
    apply TreeFacts.insert_all_elem in Hin as [Hin | Hin]; [exact Hin |].
    simpl in Hin. set_solver. }
  rewrite Hx. split; reflexivity.
Qed.

Lemma insert_then_find_witness :
  Tree.find Scenarios.eight_keys
    (Tree.insert_all Scenarios.eight_keys [0; 1; 2; 3; 4; 5; 6; 7] Tree.Nil) 2
    = Some 2 /\
  deref Scenarios.eight_keys <$>
    Tree.find Scenarios.eight_keys
      (Tree.insert_all Scenarios.eight_keys [0; 1; 2; 3; 4; 5; 6; 7] Tree.Nil) 2
    = Some 8%Z.
Proof.
  apply (insert_then_find Scenarios.eight_keys [0; 1; 2; 3; 4; 5; 6; 7] 2).
  - vm_compute. repeat (constructor; [set_solver |]). constructor.
  - set_solver.
Defined.

(** C9. When the key buffer cannot be allocated, the function returns
    [EXIT_NO_RESOURCE], which is not [EXIT_SUCCESS], having done nothing
    but report the failure: no cycle, no call into the tree library, the
    counter still at zero. *)
Theorem calloc_failure_aborts_before_loop
    {T : Type} (lib : search_h T) (e : env) (fuel : nat) :
  calloc_ok e = false ->
  exists s,
    stress_tsearch lib e fuel = Some (EXIT_NO_RESOURCE, s) /\
    EXIT_NO_RESOURCE <> EXIT_SUCCESS /\
    counter s = 0 /\ alloc_calls s = 0 /\ keep_calls s = 0 /\
    trace s = [Ev_calloc (n e) false; Ev_pr_fail Msg_calloc_failed].
Proof.
  intros H. unfold stress_tsearch. rewrite H. eexists.
  split; [reflexivity |]. split; [discriminate |]. repeat split.
Qed.

Lemma calloc_failure_aborts_before_loop_witness :
  exists s,
    stress_tsearch Tree.ops Scenarios.no_memory 0 = Some (EXIT_NO_RESOURCE, s) /\
    EXIT_NO_RESOURCE <> EXIT_SUCCESS /\
    counter s = 0 /\ alloc_calls s = 0 /\ keep_calls s = 0 /\
    trace s = [Ev_calloc (n Scenarios.no_memory) false;
               Ev_pr_fail Msg_calloc_failed].
Proof.
  apply (calloc_failure_aborts_before_loop Tree.ops Scenarios.no_memory 0).
  reflexivity.
Defined.

(** C3, as the code has it.  Provided no tree-node allocation fails: when
    [keep_stressing] permits exactly [K >= 1] cycles, the loop ends with the
    counter at [K] and the tree empty, as it was before the first cycle;
    its calls are [K] rounds, each a complete cycle whose last call is the
    one [inc_counter], right after the delete phase, followed by the
    evaluation of the loop condition. *)
Theorem cycle_accounting (e : env) (K fuel : nat) :
  (forall k, node_alloc e k = true) ->
  1 <= K -> permits e K -> K <= fuel ->
  root (started Tree.ops e) = Tree.Nil /\
  counter (started Tree.ops e) = 0 /\
  exists s rounds,
    do_while Tree.ops e fuel (started Tree.ops e) = Some s /\
    counter s = K /\ root s = Tree.Nil /\
    trace s = trace (started Tree.ops e) ++ concat rounds /\
    length rounds = K /\ Forall (round_events (n e)) rounds /\
    increments (concat rounds) = K.
Proof.
  intros Hok HK [Hgo Hstop] Hfuel.
  split; [reflexivity |]. split; [reflexivity |].
  destruct (StressorFacts.do_while_permitted Tree.ops e K fuel (started Tree.ops e))
    as (s & rounds & Hrun & Hc & _ & Ht & Hlen & Hall);
    [apply StressorFacts.tree_delivers | lia | lia | exact Hok
     | intros k Hk; apply Hgo; exact Hk | exact Hstop |].
  exists s, rounds. split; [exact Hrun |]. split; [exact Hc |].
  split; [eapply StressorFacts.do_while_root; eassumption |].
  split; [exact Ht |]. split; [exact Hlen |]. split; [exact Hall |].
  rewrite <- Hlen. eapply rounds_increments. exact Hall.
Qed.

Lemma cycle_accounting_witness :
  root (started Tree.ops Scenarios.two_cycles) = Tree.Nil /\
  counter (started Tree.ops Scenarios.two_cycles) = 0 /\
  exists s rounds,
    do_while Tree.ops Scenarios.two_cycles 2
      (started Tree.ops Scenarios.two_cycles) = Some s /\
    counter s = 2 /\ root s = Tree.Nil /\
    trace s = trace (started Tree.ops Scenarios.two_cycles) ++ concat rounds /\
    length rounds = 2 /\
    Forall (round_events (n Scenarios.two_cycles)) rounds /\
    increments (concat rounds) = 2.
Proof.
  apply (cycle_accounting Scenarios.two_cycles 2 2).
  - intros k. reflexivity.
  - lia.
  - split; [intros k Hk; apply bool_decide_eq_true_2; lia | reflexivity].
  - lia.
Defined.

(** C3 as stated fails: [keep_stressing] permits three cycles, yet the
    counter ends at zero, because the third insertion of the first cycle
    gets no node and the run is abandoned. *)
Lemma permitted_cycles_cut_short :
  permits Scenarios.three_permitted_third_node_missing 3 /\
  (fun r => (r.1, counter r.2, tsearch_calls (trace r.2),
             tdelete_calls (trace r.2), increments (trace r.2)))
    <$> stress_tsearch Tree.ops Scenarios.three_permitted_third_node_missing 3
  = Some (EXIT_SUCCESS, 0, [0; 1; 2], [0; 1], 0).
Proof.
  split.
  - split; [intros k Hk; apply bool_decide_eq_true_2; lia | reflexivity].
  - vm_compute. reflexivity.
Qed.



(** C5. With verification on and whatever the tree library answers.  A
    lookup that finds nothing, a lookup that finds a node whose value is
    not the key's, and a delete that finds nothing each hand exactly one
    message to [pr_fail].  Nothing stops for it: a cycle whose populate
    phase completed completes, and after that phase it makes, for each
    element the cancellation signal allows, the consultation, the [tfind]
    call and the message owed for its answer, then for each of the [n]
    elements the [tdelete] call and the message owed for its answer, then
    the one call of [inc_counter].  In every run of the loop the messages
    lie inside completed cycles, each of which is counted; and the loop
    runs as many cycles as [keep_stressing] permits. *)
Theorem verification_reports_do_not_abort
    {T : Type} (lib : search_h T) (e : env) :
  opt_flags_verify e = true ->
  (forall i s, tfind lib (data s) i (root s) = None ->
     trace (find_step lib e i s) =
       trace s ++ [Ev_tfind i None; Ev_pr_fail (Msg_not_found i)]) /\
  (forall i s p,
     tfind lib (data s) i (root s) = Some p ->
     deref (data s) p <> deref (data s) i ->
     trace (find_step lib e i s) =
       trace s ++ [Ev_tfind i (Some p);
                   Ev_pr_fail (Msg_mismatch i (deref (data s) p)
                                              (deref (data s) i))]) /\
  (forall i s, (tdelete lib (data s) i (root s)).1 = None ->
     trace (delete_step lib e i s) =
       trace s ++ [Ev_tdelete i None; Ev_pr_fail (Msg_not_found i)]) /\
  (forall (s s1 : state) (m : nat),
     populate lib e (n e) 0 (set_root (null_root lib) s) = Done s1 ->
     m <= n e ->
     (forall j, j < m -> stressing_flag e (flag_calls s + j) = true) ->
     (m < n e -> stressing_flag e (flag_calls s + m) = false) ->
     exists s',
       cycle lib e s = Done s' /\ counter s' = S (counter s) /\
       trace s' =
         trace s1 ++
         flat_map (lookup_calls lib true (data s1) (root s1)) (seq 0 m) ++
         [Ev_keep_stressing_flag (stressing_flag e (flag_calls s + m))] ++
         flat_map (delete_calls lib true (data s1) (root s1))
           (seq 0 (n e)) ++
         [Ev_inc_counter]) /\
  (forall (fuel : nat) (s s' : state),
     do_while lib e fuel s = Some s' ->
     exists rounds tail,
       trace s' = trace s ++ concat rounds ++ tail /\
       Forall (round_events (n e)) rounds /\
       Forall is_abort_event tail /\
       counter s' = counter s + length rounds) /\
  (forall K fuel s,
     delivers lib -> (forall k, node_alloc e k = true) ->
     1 <= K -> K <= fuel ->
     (forall k, S k < K -> stressing e (keep_calls s + k) = true) ->
     stressing e (keep_calls s + (K - 1)) = false ->
     exists s', do_while lib e fuel s = Some s' /\ counter s' = counter s + K).
Proof.
  intros Hv. repeat apply conj.
  - intros i s H. unfold find_step, call_tfind, verify_find.
    rewrite Hv, H. unfold pr_fail.
    rewrite !StressorFacts.trace_emit, <- app_assoc. reflexivity.
  - intros i s p H Hne. unfold find_step, call_tfind, verify_find.
    rewrite Hv, H. cbn [data emit].
    destruct (Z.eqb_spec (deref (data s) p) (deref (data s) i)) as [Heq | _];
      [contradiction |].
    unfold pr_fail.
    rewrite !StressorFacts.trace_emit, <- app_assoc. reflexivity.
  - intros i s H. unfold delete_step, call_tdelete, verify_delete.
    destruct (tdelete lib (data s) i (root s)) as [res t]. simpl in H.
    subst res. rewrite Hv. simpl. unfold pr_fail.
    rewrite !StressorFacts.trace_emit, <- app_assoc. reflexivity.
  - intros s s1 m H Hm Hgo Hstop.
    destruct (Script.cycle_after_populate lib e s s1 m H Hm Hgo Hstop)
      as (s' & Hcyc & _ & _ & Hc & _ & _ & Ht).
    rewrite Hv in Ht. exists s'. auto.
  - intros fuel s s' H.
    destruct (StressorFacts.do_while_rounds lib e fuel s s' H)
      as (rounds & tail & Ht & Hr & Hta & Hc & _).
    exists rounds, tail. auto.
  - intros K fuel s Hlib Hok HK Hfuel Hgo Hstop.
    destruct (StressorFacts.do_while_permitted lib e K fuel s
                Hlib HK Hfuel Hok Hgo Hstop)
      as (s' & _ & Hrun & Hc & _).
    exists s'. auto.
Qed.

Lemma verification_reports_do_not_abort_witness :
  let e := Scenarios.two_cycles in
  let s := set_data Scenarios.eight_keys (started forgetful e) in
  let s' := set_data Scenarios.eight_keys (started confused e) in
  trace (find_step forgetful e 0 s) =
    trace s ++ [Ev_tfind 0 None; Ev_pr_fail (Msg_not_found 0)] /\
  trace (find_step confused e 0 s') =
    trace s' ++ [Ev_tfind 0 (Some 1); Ev_pr_fail (Msg_mismatch 0 3 5)] /\
  trace (delete_step forgetful e 0 s) =
    trace s ++ [Ev_tdelete 0 None; Ev_pr_fail (Msg_not_found 0)] /\
  (exists s1 s2,
     populate forgetful e (n e) 0
       (set_root (null_root forgetful) (started forgetful e)) = Done s1 /\
     cycle forgetful e (started forgetful e) = Done s2 /\
     counter s2 = 1 /\
     trace s2 =
       trace s1 ++
       flat_map (lookup_calls forgetful true (data s1) (root s1))
         (seq 0 (n e)) ++
       [Ev_keep_stressing_flag true] ++
       flat_map (delete_calls forgetful true (data s1) (root s1))
         (seq 0 (n e)) ++
       [Ev_inc_counter]) /\
  exists s2,
    do_while forgetful e 2 (started forgetful e) = Some s2 /\
    counter s2 = counter (started forgetful e) + 2.
Proof.
  intros e s s'.
  destruct (verification_reports_do_not_abort forgetful e eq_refl)
    as (Hnone & _ & Hdel & Hcyc & _ & Hrun).
  destruct (verification_reports_do_not_abort confused e eq_refl)
    as (_ & Hmis & _).
  split; [apply Hnone; reflexivity |].
  split; [apply (Hmis 0 s' 1); [reflexivity | vm_compute; discriminate] |].
  split; [apply Hdel; reflexivity |].
  split.
  - destruct (StressorFacts.populate_completes forgetful e (n e) 0
                (set_root (null_root forgetful) (started forgetful e)))
      as [s1 E1]; [intros d k t; simpl; eauto | intros; reflexivity |].
    destruct (Hcyc (started forgetful e) s1 (n e) E1)
      as (s2 & Hc & Hcnt & Ht);
      [lia | intros; reflexivity | intros Hlt; lia |].
    exists s1, s2. auto.
  - apply (Hrun 2 2 (started forgetful e)).
    + intros d k t. simpl. eauto.
    + intros k. reflexivity.
    + lia.
    + lia.
    + intros k Hk. apply bool_decide_eq_true_2. simpl. lia.
    + reflexivity.
Defined.

(** C7, as the code has it.  The keys are generated inside the loop.  In
    a cycle that begins after [c] draws with the buffer [d], the populate
    phase makes, for each element in turn, one draw and right after it the
    [tsearch] call for that element, and this call reads a buffer in which
    the element already holds the key made from that draw ([filled],
    [grown], [insert_answer]); when the phase has completed it has
    consumed one draw per element and the buffer holds the keys of this
    cycle's draws.  The rest of the cycle makes no draw and no insertion,
    looks up and deletes through that same buffer, deletes all [n]
    elements, and leaves the buffer as it is.  A run of [K] completed
    cycles has consumed [K * n] draws. *)
Theorem keys_generated_in_every_cycle
    {T : Type} (lib : search_h T) (e : env) (s : state) :
  length (data s) = n e ->
  (forall s1,
     populate lib e (n e) 0 (set_root (null_root lib) s) = Done s1 ->
     let c := mwc_calls s in
     let a := alloc_calls s in
     let ks := generated_key e c <$> seq 0 (n e) in
     data s1 = ks /\
     mwc_calls s1 = c + n e /\
     root s1 = grown lib e c a (data s) (n e) /\
     trace s1 =
       trace s ++ flat_map (insert_calls lib e c a (data s)) (seq 0 (n e)) /\
     (forall i, filled e c (data s) (S i) !! i = Some (generated_key e c i)) /\
     exists s' rest,
       cycle lib e s = Done s' /\
       data s' = ks /\ mwc_calls s' = mwc_calls s1 /\
       root s' = shrunk lib ks (root s1) (n e) /\
       trace s' = trace s1 ++ rest /\
       Forall (reads lib ks (root s1)) rest /\
       tdelete_calls rest = seq 0 (n e)) /\
  (forall K fuel,
     delivers lib -> (forall k, node_alloc e k = true) ->
     1 <= K -> K <= fuel ->
     (forall k, S k < K -> stressing e (keep_calls s + k) = true) ->
     stressing e (keep_calls s + (K - 1)) = false ->
     exists s', do_while lib e fuel s = Some s' /\
                mwc_calls s' = mwc_calls s + K * n e).
Proof.
  intros Hlen. split.
  - intros s1 H c a ks.
    destruct (StressorFacts.populate_done lib e _ _ _ _ H)
      as (_ & _ & _ & Hm1 & _).
    destruct (Script.populate_script lib e c a (data s) (n e) 0
                (set_root (null_root lib) s) s1)
      as (Hd & Hr & Ht);
      [lia | reflexivity | reflexivity
       | unfold c; cbn [mwc_calls set_root]; lia
       | unfold a; cbn [alloc_calls set_root]; lia | exact H |].
    rewrite Nat.add_0_l in Hd, Hr.
    assert (Hks : data s1 = ks).
    { unfold ks. rewrite Hd, <- Hlen. apply Script.filled_all. }
    split; [exact Hks |]. split; [exact Hm1 |]. split; [exact Hr |].
    split; [exact Ht |]. split; [intros i; apply Script.filled_lookup |].
    destruct (StressorFacts.scan_length_exists e (n e) (flag_calls s))
      as (m & Hm & Hgo & Hstop).
    destruct (Script.cycle_after_populate lib e s s1 m H Hm Hgo Hstop)
      as (s' & Hcyc & Hd' & Hr' & _ & Hm' & _ & Ht').
    rewrite Hks in Hd', Hr', Ht'.
    destruct (Script.lookup_calls_reads lib (opt_flags_verify e) ks (root s1)
                (seq 0 m)) as [Hl1 Hl2].
    destruct (Script.delete_calls_reads lib (opt_flags_verify e) ks (root s1)
                0 (n e)) as [Hd1 Hd2].
    eexists s', _. split; [exact Hcyc |]. split; [exact Hd' |].
    split; [exact Hm' |]. split; [exact Hr' |]. split; [exact Ht' |].
    split.
    + apply Forall_app. split; [exact Hl1 |].
      constructor; [exact I |].
      apply Forall_app. split; [exact Hd1 | repeat constructor].
    + rewrite !StressorFacts.tdelete_calls_app, Hl2, Hd2.
      cbn [app tdelete_calls omap]. apply app_nil_r.
  - intros K fuel Hlib Hok HK Hfuel Hgo Hstop.
    destruct (StressorFacts.do_while_permitted lib e K fuel s
                Hlib HK Hfuel Hok Hgo Hstop)
      as (s' & _ & Hrun & _ & Hm & _).
    exists s'. auto.
Qed.

Lemma keys_generated_in_every_cycle_witness :
  let e := Scenarios.two_cycles in
  let s := started Tree.ops e in
  let c := mwc_calls s in
  let a := alloc_calls s in
  let ks := generated_key e c <$> seq 0 (n e) in
  (exists s1 s' rest,
     populate Tree.ops e (n e) 0 (set_root (null_root Tree.ops) s) = Done s1 /\
     data s1 = ks /\
     mwc_calls s1 = c + n e /\
     root s1 = grown Tree.ops e c a (data s) (n e) /\
     trace s1 =
       trace s ++ flat_map (insert_calls Tree.ops e c a (data s)) (seq 0 (n e)) /\
     cycle Tree.ops e s = Done s' /\
     data s' = ks /\
     trace s' = trace s1 ++ rest /\
     Forall (reads Tree.ops ks (root s1)) rest /\
     tdelete_calls rest = seq 0 (n e)) /\
  (exists s',
     do_while Tree.ops e 2 s = Some s' /\
     mwc_calls s' = mwc_calls s + 2 * n e).
Proof.
  intros e s c a ks.
  destruct (keys_generated_in_every_cycle Tree.ops e s) as [Hcycle Hrun].
  - apply length_replicate.
  - split.
    + destruct (StressorFacts.populate_completes Tree.ops e (n e) 0
                  (set_root (null_root Tree.ops) s)) as [s1 E1];
        [apply StressorFacts.tree_delivers | intros; reflexivity |].
      destruct (Hcycle s1 E1)
        as (Hd & Hm & Hr & Ht & _ & s' & rest & Hc & Hd' & _ & _ & Ht' & Hrd
            & Hdel).
      exists s1, s', rest.
      split; [exact E1 |]. split; [exact Hd |]. split; [exact Hm |].
      split; [exact Hr |]. split; [exact Ht |]. split; [exact Hc |].
      split; [exact Hd' |]. split; [exact Ht' |].
      split; [exact Hrd | exact Hdel].
    + apply (Hrun 2 2).
      * apply StressorFacts.tree_delivers.
      * intros k. reflexivity.
      * lia.
      * lia.
      * intros k Hk. apply bool_decide_eq_true_2. simpl. lia.
      * reflexivity.
Defined.

(** C7 as stated fails: in a run of two cycles over 1024 elements the
    random source is asked 2048 times, and the second cycle overwrites the
    keys of the first (element 0 held key 0, then key 2038431744). *)
Lemma keys_regenerated_in_second_cycle :
  let e := Scenarios.two_cycles in
  elements e = 1024 /\
  exists s1 s2,
    cycle Tree.ops e (started Tree.ops e) = Done s1 /\
    keep_stressing e s1 = (true, s2) /\
    exists s3,
      cycle Tree.ops e s2 = Done s3 /\
      mwc_calls s1 = 1024 /\ data s1 !! 0 = Some 0%Z /\
      mwc_calls s3 = 2048 /\ data s3 !! 0 = Some 2038431744%Z.
Proof.
  intros e.
  assert (Hn : n e = 1024) by (vm_compute; reflexivity).
  split; [exact Hn |].
  destruct (StressorFacts.cycle_completes Tree.ops e (started Tree.ops e))
    as [s1 E1]; [apply StressorFacts.tree_delivers | intros; reflexivity |].
  destruct (StressorFacts.cycle_done Tree.ops e _ _ E1)
    as (_ & Hk1 & Hm1 & _ & Hl1 & Hd1 & _).
  exists s1, (keep_stressing e s1).2.
  split; [exact E1 |].
  split; [unfold keep_stressing; rewrite Hk1; reflexivity |].
  destruct (StressorFacts.cycle_completes Tree.ops e (keep_stressing e s1).2)
    as [s3 E3]; [apply StressorFacts.tree_delivers | intros; reflexivity |].
  destruct (StressorFacts.cycle_done Tree.ops e _ _ E3)
    as (_ & _ & Hm3 & _ & _ & Hd3 & _).
  exists s3. split; [exact E3 |].
  assert (Hlen : length (data (started Tree.ops e)) = 1024)
    by (rewrite <- Hn; apply length_replicate).
  change (mwc_calls (started Tree.ops e)) with 0 in Hm1, Hd1.
  change (mwc_calls (keep_stressing e s1).2) with (mwc_calls s1) in Hm3, Hd3.
  change (data (keep_stressing e s1).2) with (data s1) in Hd3.
  rewrite Hn in *.
  split; [exact Hm1 |].
  split; [rewrite Hd1 by lia; vm_compute; reflexivity |].
  split; [rewrite Hm3, Hm1; reflexivity |].
  rewrite Hd3 by lia. rewrite Hm1. vm_compute. reflexivity.
Qed.







(** * Further properties *)

(** ** The key expression *)

Module KeyMore.
Import Key.
Local Open Scope Z_scope.

(** Two values with the same low 32 bits convert to the same [int32_t]. *)
Lemma to_int32_congr (a b : Z) :
  a mod 2 ^ 32 = b mod 2 ^ 32 -> to_int32 a = to_int32 b.
Proof.
  intros H. unfold to_int32.
  rewrite (Zplus_mod a), H, <- Zplus_mod. reflexivity.
Qed.

(** The low 32 bits of a key before the final cast. *)
Lemma tsearch_key_mod (r : Z) (i : nat) :
  tsearch_key r i mod 2 ^ 32 =
  Z.lxor (Z.shiftl (Z.land r 0xfff) 22 mod 2 ^ 32) (Z.of_nat i mod 2 ^ 32).
Proof.
  unfold tsearch_key, TSEARCH_SIZE_SHIFT.
  rewrite (KeyFacts.to_int32_mod _ 32) by lia.
  rewrite KeyFacts.lxor_mod_pow2 by lia.
  rewrite !(KeyFacts.to_size_t_mod _ 32) by lia.
  rewrite (KeyFacts.to_int32_mod _ 32) by lia. reflexivity.
Qed.

Lemma tsearch_key_congr (r r' : Z) (i i' : nat) :
  tsearch_key r i mod 2 ^ 32 = tsearch_key r' i' mod 2 ^ 32 ->
  tsearch_key r i = tsearch_key r' i'.
Proof.
  intros H.
  pose proof (KeyFacts.tsearch_key_range r i).
  pose proof (KeyFacts.tsearch_key_range r' i').
  assert (Hd : (tsearch_key r i - tsearch_key r' i') mod 2 ^ 32 = 0)
    by (rewrite Zminus_mod, H, Z.sub_diag; reflexivity).
  apply Z.mod_divide in Hd; [| lia]. destruct Hd as [q Hq]. lia.
Qed.

Lemma shifted_draw_bits (r m : Z) :
  0 <= m ->
  Z.testbit (Z.shiftl (Z.land r 0xfff) 22 mod 2 ^ 32) m =
  (m <? 32) && (22 <=? m) && Z.testbit r (m - 22).
Proof.
  intros Hm. rewrite Z.testbit_mod_pow2 by lia.
  rewrite Z.shiftl_spec by lia. rewrite Z.land_spec.
  destruct (Z.ltb_spec m 32); [| reflexivity]. simpl.
  destruct (Z.leb_spec 22 m).
  - simpl. replace (Z.testbit 4095 (m - 22)) with true;
      [apply andb_true_r |].
    symmetry. change 4095 with (Z.ones 12). apply Z.ones_spec_low. lia.
  - simpl. rewrite Z.testbit_neg_r by lia. reflexivity.
Qed.

End KeyMore.

(** X2. Of the random value only the low 10 bits reach the key: the mask
    keeps 12 bits, the shift by 22 in a 32 bit [int] drops the upper two of
    them, so two draws that agree modulo 1024 give the same key. *)
Theorem key_depends_on_low_ten_bits (r : Z) (i : nat) :
  tsearch_key r i = tsearch_key (r mod 2 ^ 10)%Z i.
Proof.
  apply KeyMore.tsearch_key_congr. rewrite !KeyMore.tsearch_key_mod.
  f_equal. apply Z.bits_inj'. intros m Hm.
  rewrite !KeyMore.shifted_draw_bits by lia.
  rewrite Z.testbit_mod_pow2 by lia.
  destruct (Z.ltb_spec m 32); [| reflexivity].
  destruct (Z.leb_spec 22 m); [| reflexivity]. simpl.
  destruct (Z.ltb_spec (m - 22) 10); [reflexivity | lia].
Qed.

(** X3. The upper bound of the size is sharp: the key of element 2^22 made
    from the draw [r] is the key of element 0 made from the draw [r] with
    its lowest bit flipped, so beyond [MAX_TSEARCH_SIZE] elements two
    elements can hold the same key. *)
Theorem key_collision_beyond_max (r : Z) :
  tsearch_key r (Z.to_nat MAX_TSEARCH_SIZE) = tsearch_key (Z.lxor r 1) 0.
Proof.
  apply KeyMore.tsearch_key_congr. rewrite !KeyMore.tsearch_key_mod.
  rewrite Z2Nat.id by (vm_compute; discriminate).
  change MAX_TSEARCH_SIZE with (2 ^ 22)%Z. change (Z.of_nat 0) with 0%Z.
  apply Z.bits_inj'. intros m Hm.
  rewrite !Z.lxor_spec, !KeyMore.shifted_draw_bits by lia.
  rewrite !Z.testbit_mod_pow2 by lia. rewrite Z.lxor_spec.
  rewrite Z.bits_0, andb_false_r, xorb_false_r.
  rewrite (Z.pow2_bits_eqb 22) by lia.
  change 1%Z with (2 ^ 0)%Z. rewrite (Z.pow2_bits_eqb 0) by lia.
  destruct (Z.eqb_spec 22 m); destruct (Z.eqb_spec 0 (m - 22));
    destruct (Z.ltb_spec m 32); destruct (Z.leb_spec 22 m);
    try lia; simpl; rewrite ?xorb_false_r, ?andb_true_r; reflexivity.
Qed.

(** ** The element count *)

(** X4. Lines 66-76.  An explicit size setting is taken as it is, whatever
    the flags.  Without one the count is the default 64K, the maximum with
    the maximize flag, the minimum with the minimize flag, and the minimum
    when both flags are given, because the minimize test comes last; it is
    then always in the supported range. *)
Theorem element_count_resolution (e : env) :
  (forall v, setting_tsearch_size e = Some v -> (0 <= v < 2 ^ 64)%Z ->
     Z.of_nat (elements e) = v) /\
  (setting_tsearch_size e = None ->
     Z.of_nat (elements e) =
       (if opt_flags_minimize e then MIN_TSEARCH_SIZE
        else if opt_flags_maximize e then MAX_TSEARCH_SIZE
        else DEFAULT_TSEARCH_SIZE) /\
     (MIN_TSEARCH_SIZE <= Z.of_nat (elements e) <= MAX_TSEARCH_SIZE)%Z).
Proof.
  unfold elements, tsearch_size.
  assert (Hid : forall z, (0 <= z < 2 ^ 64)%Z ->
                          Z.of_nat (Z.to_nat (to_size_t z)) = z).
  { intros z Hz. unfold to_size_t. rewrite Z.mod_small by exact Hz.
    apply Z2Nat.id. lia. }
  split.
  - intros v -> Hv. unfold to_size_t at 2. rewrite Z.mod_small by exact Hv.
    apply Hid, Hv.
  - intros ->.
    destruct (opt_flags_minimize e), (opt_flags_maximize e);
      (rewrite Hid by (vm_compute; split; [discriminate | reflexivity]));
      (split; [reflexivity | vm_compute; split; discriminate]).
Qed.

Lemma element_count_resolution_witness :
  Z.of_nat (elements Scenarios.two_cycles) = MIN_TSEARCH_SIZE /\
  (MIN_TSEARCH_SIZE <= Z.of_nat (elements Scenarios.two_cycles)
     <= MAX_TSEARCH_SIZE)%Z.
Proof.
  exact (proj2 (element_count_resolution Scenarios.two_cycles) eq_refl).
Defined.

(** ** The key buffer *)

Lemma populate_buffer_distinct_witness :
  let e := Scenarios.two_cycles in
  exists s1,
    populate Tree.ops e (n e) 0 (started Tree.ops e) = Done s1 /\
    NoDup (data s1).
Proof.
  intros e.
  destruct (StressorFacts.populate_completes Tree.ops e (n e) 0
              (started Tree.ops e)) as [s1 E1];
    [apply StressorFacts.tree_delivers | intros; reflexivity |].
  exists s1. split; [exact E1 |].
  apply (populate_buffer_distinct Tree.ops e (started Tree.ops e) s1).
  - vm_compute. split; discriminate.
  - vm_compute. reflexivity.
  - exact E1.
Defined.

(** X5. Lines 89-90.  When a populate phase over at most 2^22 elements has
    completed, every element of the buffer holds a 32 bit signed value
    whose low 22 bits are the element's index: the index can be read back
    from the key. *)
Theorem populated_key_carries_index
    {T : Type} (lib : search_h T) (e : env) (s s1 : state) (i : nat) :
  (Z.of_nat (n e) <= MAX_TSEARCH_SIZE)%Z ->
  length (data s) = n e ->
  populate lib e (n e) 0 s = Done s1 ->
  i < n e ->
  exists v,
    data s1 !! i = Some v /\
    (- 2 ^ 31 <= v < 2 ^ 31)%Z /\
    (v mod 2 ^ TSEARCH_SIZE_SHIFT)%Z = Z.of_nat i.
Proof.
  intros HN Hlen H Hi.
  change MAX_TSEARCH_SIZE with (2 ^ TSEARCH_SIZE_SHIFT)%Z in HN.
  exists (generated_key e (mwc_calls s) i).
  split; [| split].
  - rewrite (populate_buffer lib e s s1 Hlen H).
    rewrite list_lookup_fmap, lookup_seq_lt by lia. reflexivity.
  - apply KeyFacts.tsearch_key_range.
  - apply KeyFacts.tsearch_key_low_bits. lia.
Qed.

Lemma populated_key_carries_index_witness :
  let e := Scenarios.two_cycles in
  exists s1 v,
    populate Tree.ops e (n e) 0 (started Tree.ops e) = Done s1 /\
    data s1 !! 1000 = Some v /\
    (- 2 ^ 31 <= v < 2 ^ 31)%Z /\
    (v mod 2 ^ TSEARCH_SIZE_SHIFT)%Z = 1000%Z.
Proof.
  intros e.
  destruct (StressorFacts.populate_completes Tree.ops e (n e) 0
              (started Tree.ops e)) as [s1 E1];
    [apply StressorFacts.tree_delivers | intros; reflexivity |].
  destruct (populated_key_carries_index Tree.ops e (started Tree.ops e) s1 1000)
    as (v & Hv & Hr & Hm).
  - vm_compute. discriminate.
  - vm_compute. reflexivity.
  - exact E1.
  - vm_compute. lia.
  - exists s1, v. split; [exact E1 |]. split; [exact Hv |].
    split; [exact Hr |]. rewrite Hm. vm_compute. reflexivity.
Defined.

(** ** The kinds of calls a run makes *)

Module CallKinds.

Lemma reaches_refl {T : Type} (P : event -> Prop) (s : state (T := T)) :
  reaches P s s.
Proof. exists []. rewrite app_nil_r. split; [reflexivity | constructor]. Qed.

Lemma reaches_trans {T : Type} (P : event -> Prop) (s1 s2 s3 : state (T := T)) :
  reaches P s1 s2 -> reaches P s2 s3 -> reaches P s1 s3.
Proof.
  intros (a & Ha & Pa) (b & Hb & Pb). exists (a ++ b).
  rewrite Hb, Ha, <- app_assoc. split; [reflexivity | apply Forall_app; auto].
Qed.

(** Reading the calls off the log, which has the latest call first. *)
Lemma reaches_of_log {T : Type} (P : event -> Prop) (s s' : state (T := T)) :
  (exists new, log s' = new ++ log s /\ Forall P new) -> reaches P s s'.
Proof.
  intros (new & Hlog & Hnew). exists (rev new). unfold trace.
  rewrite Hlog, rev_app_distr. split; [reflexivity |].
  apply List.Forall_rev, Hnew.
Qed.

(** Closes [reaches P s s'] when [s'] is [s] after up to three calls. *)
Ltac by_log :=
  apply reaches_of_log;
  first [ exists []; split; [reflexivity |]
        | eexists [_]; split; [reflexivity |]
        | eexists [_; _]; split; [reflexivity |]
        | eexists [_; _; _]; split; [reflexivity |] ];
  repeat constructor; auto.

Section Kinds.
Context {T : Type}.
Variable lib : search_h T.
Variable e : env.
Variable P : event -> Prop.

Hypothesis P_mwc16 : forall r, P (Ev_mwc16 r).
Hypothesis P_tsearch : forall i res, P (Ev_tsearch i res).
Hypothesis P_tfind : forall i res, P (Ev_tfind i res).
Hypothesis P_tdelete : forall i res, P (Ev_tdelete i res).
Hypothesis P_flag : forall b, P (Ev_keep_stressing_flag b).
Hypothesis P_inc : P Ev_inc_counter.
Hypothesis P_err : P (Ev_pr_err Msg_cannot_allocate_node).
Hypothesis P_fail : opt_flags_verify e = true -> forall m, P (Ev_pr_fail m).

Lemma call_tdelete_reaches (i : nat) (s : state) :
  reaches P s (call_tdelete lib i s).2.
Proof.
  unfold call_tdelete. destruct (tdelete lib (data s) i (root s)) as [res t].
  by_log.
Qed.

Lemma for_range_reaches (body : nat -> state (T := T) -> state (T := T)) :
  (forall i s, reaches P s (body i s)) ->
  forall count i s, reaches P s (for_range count i body s).
Proof.
  intros Hbody count. induction count as [| c IH]; intros i s; simpl.
  - apply reaches_refl.
  - eapply reaches_trans; [apply Hbody | apply IH].
Qed.

Lemma populate_step_reaches (i : nat) (s : state) :
  match populate_step lib e i s with
  | Done s' | Aborted s' => reaches P s s'
  end.
Proof.
  unfold populate_step, stress_mwc16, call_tsearch.
  cbn [data root alloc_calls emit set_data].
  destruct (tsearch lib _ i (root s) _) as [[p |] t]; [by_log |].
  eapply reaches_trans; [| apply for_range_reaches, call_tdelete_reaches].
  by_log.
Qed.

Lemma populate_reaches (count i : nat) (s : state) :
  match populate lib e count i s with
  | Done s' | Aborted s' => reaches P s s'
  end.
Proof.
  revert i s. induction count as [| c IH]; intros i s; simpl.
  - apply reaches_refl.
  - pose proof (populate_step_reaches i s) as H1.
    destruct (populate_step lib e i s) as [s1 | s1]; [| exact H1].
    specialize (IH (S i) s1).
    destruct (populate lib e c (S i) s1); eapply reaches_trans; eassumption.
Qed.

Lemma find_step_reaches (i : nat) (s : state) :
  reaches P s (find_step lib e i s).
Proof.
  unfold find_step, call_tfind, verify_find.
  destruct (opt_flags_verify e) eqn:Hv; [| by_log].
  destruct (tfind lib (data s) i (root s)) as [p |]; [| by_log].
  cbn [data emit].
  destruct (deref (data s) p =? deref (data s) i)%Z; by_log.
Qed.

Lemma find_phase_reaches (count i : nat) (s : state) :
  reaches P s (find_phase lib e count i s).
Proof.
  revert i s. induction count as [| c IH]; intros i s; simpl.
  - destruct (stressing_flag e (flag_calls s)); by_log.
  - destruct (stressing_flag e (flag_calls s)); [| by_log].
    eapply reaches_trans; [| apply IH].
    eapply reaches_trans; [| apply find_step_reaches].
    by_log.
Qed.

Lemma delete_step_reaches (i : nat) (s : state) :
  reaches P s (delete_step lib e i s).
Proof.
  unfold delete_step, call_tdelete, verify_delete.
  destruct (tdelete lib (data s) i (root s)) as [res t].
  destruct (opt_flags_verify e) eqn:Hv; [| by_log].
  destruct (bool_decide (res = None)); by_log.
Qed.

(** The calls of one pass through the loop body, however it ends. *)
Lemma cycle_reaches (s : state) :
  match cycle lib e s with
  | Done s' | Aborted s' => reaches P s s'
  end.
Proof.
  unfold cycle.
  pose proof (populate_reaches (n e) 0 (set_root (null_root lib) s)) as H1.
  assert (H0 : reaches P s (set_root (null_root lib) s)) by by_log.
  destruct (populate lib e (n e) 0 (set_root (null_root lib) s)) as [s1 | s1];
    [| eapply reaches_trans; eassumption].
  eapply reaches_trans; [exact H0 |].
  eapply reaches_trans; [exact H1 |].
  eapply reaches_trans; [apply find_phase_reaches |].
  eapply reaches_trans;
    [apply (for_range_reaches _ (delete_step_reaches)) |].
  by_log.
Qed.

Hypothesis P_keep : forall b, P (Ev_keep_stressing b).

(** The calls of the whole loop. *)
Lemma do_while_reaches (fuel : nat) (s s' : state) :
  do_while lib e fuel s = Some s' -> reaches P s s'.
Proof.
  revert s. induction fuel as [| f IH]; intros s; simpl; [discriminate |].
  pose proof (cycle_reaches s) as H1.
  destruct (cycle lib e s) as [s1 | s1]; [| intros [= <-]; exact H1].
  destruct (stressing e (keep_calls s1)).
  - intros H. eapply reaches_trans; [exact H1 |].
    eapply reaches_trans; [| apply IH, H]. by_log.
  - intros [= <-]. eapply reaches_trans; [exact H1 |]. by_log.
Qed.

End Kinds.

End CallKinds.

(** ** Whole runs *)

(** A run whose loop ends is the loop between two fixed pairs of calls. *)
Lemma run_of_loop {T : Type} (lib : search_h T) (e : env) (fuel : nat) (s1 : state) :
  calloc_ok e = true ->
  do_while lib e fuel (started lib e) = Some s1 ->
  stress_tsearch lib e fuel =
    Some (EXIT_SUCCESS,
          emit Ev_free (stress_set_proc_state STRESS_STATE_DEINIT s1)).
Proof. intros Hc H. unfold stress_tsearch. rewrite Hc, H. reflexivity. Qed.

Lemma loop_of_run {T : Type} (lib : search_h T) (e : env) (fuel : nat)
    (c : exit_code) (s : state) :
  calloc_ok e = true ->
  stress_tsearch lib e fuel = Some (c, s) ->
  exists s1,
    do_while lib e fuel (started lib e) = Some s1 /\
    trace s = trace s1 ++ [Ev_set_proc_state STRESS_STATE_DEINIT; Ev_free].
Proof.
  intros Hc. unfold stress_tsearch. rewrite Hc.
  destruct (do_while lib e fuel (started lib e)) as [s1 |]; [| discriminate].
  intros [= _ <-]. exists s1. split; [reflexivity |].
  unfold trace. simpl. rewrite <- app_assoc. reflexivity.
Qed.

(** A one-cycle run over the tree that ends. *)
Lemma one_cycle_loop (e : env) :
  (forall k, node_alloc e k = true) -> stressing e 0 = false ->
  exists s1, do_while Tree.ops e 1 (started Tree.ops e) = Some s1.
Proof.
  intros Hok Hstop.
  destruct (StressorFacts.do_while_permitted Tree.ops e 1 1 (started Tree.ops e))
    as (s1 & _ & Hrun & _);
    [apply StressorFacts.tree_delivers | lia | lia | exact Hok
     | intros k Hk; lia | exact Hstop |].
  eauto.
Qed.

(** X6. Lines 78-83 and 133-137.  On every run that got its key buffer and
    whose loop ends, by the loop condition or through [goto abort], the
    first two calls are [calloc] and the change to the running state, the
    last two are the change to the de-initialising state and [free], and
    none of these is called in between: the buffer is freed exactly once,
    on every path, after the last call into the tree library. *)
Theorem buffer_freed_once_at_the_end
    {T : Type} (lib : search_h T) (e : env) (fuel : nat)
    (c : exit_code) (s : state) :
  calloc_ok e = true ->
  stress_tsearch lib e fuel = Some (c, s) ->
  exists mid,
    trace s =
      [Ev_calloc (n e) true; Ev_set_proc_state STRESS_STATE_RUN] ++ mid ++
      [Ev_set_proc_state STRESS_STATE_DEINIT; Ev_free] /\
    Forall is_loop_event mid.
Proof.
  intros Hc H. destruct (loop_of_run lib e fuel c s Hc H) as (s1 & Hrun & Ht).
  assert (Hr : reaches is_loop_event (started lib e) s1)
    by (eapply CallKinds.do_while_reaches;
        first [exact Hrun | intros; exact I]).
  destruct Hr as (mid & Hmid & Hall).
  exists mid. split; [| exact Hall].
  rewrite Ht, Hmid, <- app_assoc. reflexivity.
Qed.

Lemma buffer_freed_once_at_the_end_witness :
  let e := Scenarios.fourth_node_missing in
  exists s mid,
    stress_tsearch Tree.ops e 1 = Some (EXIT_SUCCESS, s) /\
    trace s =
      [Ev_calloc (n e) true; Ev_set_proc_state STRESS_STATE_RUN] ++ mid ++
      [Ev_set_proc_state STRESS_STATE_DEINIT; Ev_free] /\
    Forall is_loop_event mid.
Proof.
  intros e.
  destruct (stress_tsearch Tree.ops e 1) as [[c s] |] eqn:E;
    [| vm_compute in E; discriminate].
  assert (c = EXIT_SUCCESS) as ->.
  { revert E. unfold stress_tsearch. change (calloc_ok e) with true. cbv iota.
    destruct (do_while Tree.ops e 1 (started Tree.ops e));
      [intros [= <- _]; reflexivity | discriminate]. }
  destruct (buffer_freed_once_at_the_end Tree.ops e 1 EXIT_SUCCESS s eq_refl E)
    as (mid & Ht & Hall).
  exists s, mid. auto.
Defined.

(** X7. Lines 105 and 125.  With verification off, a run that got its key
    buffer hands nothing to [pr_fail], whatever the tree library answers,
    lost keys and wrong nodes included. *)
Theorem nothing_reported_without_verify
    {T : Type} (lib : search_h T) (e : env) (fuel : nat)
    (c : exit_code) (s : state) :
  opt_flags_verify e = false ->
  calloc_ok e = true ->
  stress_tsearch lib e fuel = Some (c, s) ->
  Forall is_not_failure (trace s).
Proof.
  intros Hv Hc H. destruct (loop_of_run lib e fuel c s Hc H) as (s1 & Hrun & Ht).
  assert (Hr : reaches is_not_failure (started lib e) s1)
    by (eapply CallKinds.do_while_reaches;
        first [exact Hrun | intros; exact I | rewrite Hv; discriminate]).
  destruct Hr as (mid & Hmid & Hall).
  rewrite Ht, Hmid.
  change (trace (started lib e))
    with [Ev_calloc (n e) true; Ev_set_proc_state STRESS_STATE_RUN].
  apply Forall_app; split;
    [apply Forall_app; split; [repeat constructor | exact Hall]
    | repeat constructor].
Qed.

Lemma nothing_reported_without_verify_witness :
  exists s,
    stress_tsearch forgetful Scenarios.unverified 1 = Some (EXIT_SUCCESS, s) /\
    Forall is_not_failure (trace s).
Proof.
  destruct (StressorFacts.do_while_permitted forgetful Scenarios.unverified 1 1
              (started forgetful Scenarios.unverified))
    as (s1 & _ & Hrun & _);
    [intros d k t; simpl; eauto | lia | lia | intros k; reflexivity
     | intros k Hk; lia | reflexivity |].
  pose proof (run_of_loop forgetful Scenarios.unverified 1 s1 eq_refl Hrun) as E.
  eexists. split; [exact E |].
  exact (nothing_reported_without_verify forgetful Scenarios.unverified 1 _ _
           eq_refl eq_refl E).
Defined.

Lemma keep_answers_app (a b : list event) :
  keep_answers (a ++ b) = keep_answers a ++ keep_answers b.
Proof. apply omap_app. Qed.

(** A pass through the loop body does not evaluate the loop condition. *)
Lemma cycle_keep_answers {T : Type} (lib : search_h T) (e : env) (s s' : state)
    (evs : list event) :
  cycle lib e s = Done s' \/ cycle lib e s = Aborted s' ->
  trace s' = trace s ++ evs -> keep_answers evs = [].
Proof.
  intros Hcyc Ht.
  assert (Hr : reaches is_not_loop_condition s s').
  { pose proof (CallKinds.cycle_reaches lib e is_not_loop_condition) as H.
    specialize (H (fun _ => I) (fun _ _ => I) (fun _ _ => I) (fun _ _ => I)
                  (fun _ => I) I I (fun _ _ => I) s).
    destruct Hcyc as [E | E]; rewrite E in H; exact H. }
  destruct Hr as (evs' & Ht' & Hall).
  rewrite Ht in Ht'. apply app_inv_head in Ht'. subst evs'.
  apply StressorFacts.omap_all_none. eapply Forall_impl; [exact Hall |].
  intros [] Hev; simpl in *; solve [contradiction | reflexivity].
Qed.

(** X8. Lines 85-131.  The loop ends in one of two ways.  Either its last
    call is an evaluation of [keep_stressing] that answered "stop", all
    earlier evaluations answered "go on", and the counter has gone up by
    the number of evaluations; or a cycle was abandoned with the node
    allocation error, every evaluation so far answered "go on", and the
    counter has gone up by their number. *)
Theorem loop_ends_at_first_stop
    {T : Type} (lib : search_h T) (e : env) (fuel : nat) (s s' : state) :
  do_while lib e fuel s = Some s' ->
  exists evs r,
    trace s' = trace s ++ evs /\
    ((exists before,
        evs = before ++ [Ev_keep_stressing false] /\
        keep_answers before = replicate r true /\
        counter s' = counter s + S r) \/
     (keep_answers evs = replicate r true /\
      counter s' = counter s + r /\
      Ev_pr_err Msg_cannot_allocate_node ∈ evs)).
Proof.
  revert s. induction fuel as [| f IH]; intros s; simpl; [discriminate |].
  destruct (cycle lib e s) as [s1 | s1] eqn:E1.
  - destruct (StressorFacts.cycle_done lib e _ _ E1)
      as (Hc & _ & _ & _ & _ & _ & cyc & Ht & _).
    pose proof (cycle_keep_answers lib e s s1 cyc (or_introl E1) Ht) as Hk.
    destruct (stressing e (keep_calls s1)).
    + intros H. destruct (IH _ H) as (evs & r & Ht' & Hcase).
      assert (Ht2 : trace s' = trace s ++ (cyc ++ [Ev_keep_stressing true]) ++ evs)
        by (rewrite Ht'; unfold trace at 1; simpl; fold (trace s1);
            rewrite Ht, <- !app_assoc; reflexivity).
      exists ((cyc ++ [Ev_keep_stressing true]) ++ evs), (S r).
      split; [exact Ht2 |].
      destruct Hcase as [(before & -> & Hb & Hcnt) | (Hb & Hcnt & Hin)].
      * left. exists ((cyc ++ [Ev_keep_stressing true]) ++ before).
        split; [rewrite <- !app_assoc; reflexivity |].
        split; [rewrite !keep_answers_app, Hk, Hb; reflexivity |].
        simpl in Hcnt. lia.
      * right. split; [rewrite !keep_answers_app, Hk, Hb; reflexivity |].
        split; [simpl in Hcnt; lia |]. set_solver.
    + intros [= <-]. exists (cyc ++ [Ev_keep_stressing false]), 0.
      split; [unfold trace at 1; simpl; fold (trace s1);
              rewrite Ht, <- app_assoc; reflexivity |].
      left. exists cyc. split; [reflexivity |]. split; [exact Hk |].
      simpl. lia.
  - intros [= <-].
    destruct (StressorFacts.cycle_aborted lib e _ _ E1) as (Hc & _ & evs & Ht & _).
    exists evs, 0. split; [exact Ht |]. right.
    split; [apply (cycle_keep_answers lib e s s1 evs (or_intror E1) Ht) |].
    split; [lia |].
    revert E1. unfold cycle.
    destruct (populate lib e (n e) 0 (set_root (null_root lib) s))
      as [| s2] eqn:E2; [discriminate |].
    intros [= ->].
    destruct (StressorFacts.populate_aborted lib e _ _ _ _ E2)
      as (_ & _ & j & pre & clean & _ & Ht2 & _).
    change (trace (set_root (null_root lib) s)) with (trace s) in Ht2.
    rewrite Ht in Ht2. apply app_inv_head in Ht2. subst evs. set_solver.
Qed.

Lemma loop_ends_at_first_stop_witness :
  let e := Scenarios.two_cycles in
  exists s' evs r,
    do_while Tree.ops e 2 (started Tree.ops e) = Some s' /\
    trace s' = trace (started Tree.ops e) ++ evs /\
    ((exists before,
        evs = before ++ [Ev_keep_stressing false] /\
        keep_answers before = replicate r true /\
        counter s' = counter (started Tree.ops e) + S r) \/
     (keep_answers evs = replicate r true /\
      counter s' = counter (started Tree.ops e) + r /\
      Ev_pr_err Msg_cannot_allocate_node ∈ evs)).
Proof.
  intros e.
  destruct (StressorFacts.do_while_permitted Tree.ops e 2 2 (started Tree.ops e))
    as (s' & _ & Hrun & _);
    [apply StressorFacts.tree_delivers | lia | lia | intros k; reflexivity
     | intros k Hk; apply bool_decide_eq_true_2; simpl; lia | reflexivity |].
  destruct (loop_ends_at_first_stop Tree.ops e 2 _ s' Hrun) as (evs & r & H).
  exists s', evs, r. split; [exact Hrun | exact H].
Defined.

(** ** The abandoned cycle *)

(** X9. Lines 89-99.  A cycle that is abandoned was abandoned at some
    element [j]: up to then it made one draw and one successful [tsearch]
    call per element before [j]; the [tsearch] call for [j] answered
    [NULL]; then come the one [pr_err] message and exactly [j] further
    calls, the [tdelete] calls for the elements [0 .. j - 1] in order,
    whose results are not looked at.  Nothing is looked up or counted. *)
Theorem abandoned_cycle_cleans_up
    {T : Type} (lib : search_h T) (e : env) (s s' : state) :
  cycle lib e s = Aborted s' ->
  counter s' = counter s /\
  exists j before clean,
    j < n e /\
    trace s' = trace s ++ before ++
      [Ev_tsearch j None; Ev_pr_err Msg_cannot_allocate_node] ++ clean /\
    tsearch_calls before = seq 0 j /\
    tdelete_calls before = [] /\
    tdelete_calls clean = seq 0 j /\ length clean = j /\
    tfind_calls (before ++ clean) = [] /\
    increments (before ++ clean) = 0 /\
    Forall is_not_failure (before ++ clean).
Proof.
  unfold cycle.
  destruct (populate lib e (n e) 0 (set_root (null_root lib) s))
    as [| s1] eqn:E1; [discriminate |].
  intros [= <-].
  destruct (StressorFacts.populate_aborted lib e _ _ _ _ E1)
    as (Hc & _ & j & pre & clean & Hj & Ht & Hp & Hpd & Hps & Hcl & Hcd & Hcn).
  split; [exact Hc |]. exists j, pre, clean.
  rewrite Nat.sub_0_r in Hps.
  assert (Hall : Forall is_abort_event (pre ++ clean))
    by (apply Forall_app; auto).
  split; [lia |]. split; [exact Ht |]. split; [exact Hps |].
  split; [exact Hpd |]. split; [exact Hcd |]. split; [exact Hcn |].
  split; [StressorFacts.no_such_call Hall |].
  split; [apply StressorFacts.abort_no_increment, Hall |].
  eapply Forall_impl; [exact Hall |].
  intros [] Hev; simpl in *; solve [contradiction | exact I].
Qed.

Lemma abandoned_cycle_cleans_up_witness :
  let e := Scenarios.fourth_node_missing in
  exists s' j before clean,
    cycle Tree.ops e (started Tree.ops e) = Aborted s' /\
    counter s' = counter (started Tree.ops e) /\
    j < n e /\
    trace s' = trace (started Tree.ops e) ++ before ++
      [Ev_tsearch j None; Ev_pr_err Msg_cannot_allocate_node] ++ clean /\
    tsearch_calls before = seq 0 j /\
    tdelete_calls clean = seq 0 j /\ length clean = j.
Proof.
  intros e.
  destruct (cycle Tree.ops e (started Tree.ops e)) as [s' | s'] eqn:E;
    [vm_compute in E; discriminate |].
  destruct (abandoned_cycle_cleans_up Tree.ops e _ s' E)
    as (Hc & j & before & clean & Hj & Ht & Hs & _ & Hd & Hl & _).
  exists s', j, before, clean. auto 10.
Defined.

(** ** No elements *)

(** X10. Lines 89-130 with [n = 0], a size the function itself does not
    refuse.  Every loop body is then empty: a cycle makes no draw and no
    call into the tree library, cannot be abandoned whatever the allocator
    does, asks the cancellation signal once and counts itself. *)
Theorem cycle_over_no_elements
    {T : Type} (lib : search_h T) (e : env) (s : state) :
  elements e = 0 ->
  exists s',
    cycle lib e s = Done s' /\
    counter s' = S (counter s) /\
    data s' = data s /\
    root s' = null_root lib /\
    trace s' = trace s ++
      [Ev_keep_stressing_flag (stressing_flag e (flag_calls s));
       Ev_inc_counter].
Proof.
  intros Hn. unfold cycle, delete_phase, n. rewrite Hn. simpl.
  eexists. split; [reflexivity |].
  destruct (stressing_flag e (flag_calls s)); simpl;
    (repeat split; unfold trace; simpl; rewrite <- app_assoc; reflexivity).
Qed.

Lemma cycle_over_no_elements_witness :
  let e := Scenarios.zero_elements in
  exists s',
    cycle Tree.ops e (started Tree.ops e) = Done s' /\
    counter s' = 1 /\
    data s' = [] /\
    root s' = Tree.Nil /\
    trace s' = trace (started Tree.ops e) ++
      [Ev_keep_stressing_flag true; Ev_inc_counter].
Proof.
  intros e.
  exact (cycle_over_no_elements Tree.ops e (started Tree.ops e) eq_refl).
Defined.

(** ** Verification only observes *)

Module VerifyFlag.

Lemma omap_rev {A B : Type} (f : A -> option B) (l : list A) :
  omap f (rev l) = rev (omap f l).
Proof.
  induction l as [| x l IH]; [reflexivity |]. simpl.
  rewrite omap_app, IH. simpl. destruct (f x); simpl;
    [reflexivity | rewrite app_nil_r; reflexivity].
Qed.

Lemma without_failures_keep (ev : event) (l : list event) :
  is_not_failure ev -> without_failures (ev :: l) = ev :: without_failures l.
Proof. destruct ev; simpl; solve [contradiction | reflexivity]. Qed.

Lemma without_failures_fail (m : message) (l : list event) :
  without_failures (Ev_pr_fail m :: l) = without_failures l.
Proof. reflexivity. Qed.

(** Settles [agree] between two states given by their fields. *)
Ltac agree_fields :=
  unfold agree in *;
  repeat match goal with H : _ /\ _ |- _ => destruct H end;
  cbn [data root counter mwc_calls alloc_calls flag_calls keep_calls log
       emit set_data set_root pr_fail pr_err inc_counter fst snd] in *;
  repeat split; try congruence;
  repeat first [ rewrite without_failures_fail
               | rewrite without_failures_keep by exact I ];
  congruence.

Section Flag.
Context {T : Type}.
Variable lib : search_h T.
Variable e : env.
Variable b : bool.

Lemma agree_refl (s : state (T := T)) : agree s s.
Proof. repeat split. Qed.

Lemma agree_call_tdelete (i : nat) (s1 s2 : state) :
  agree s1 s2 ->
  (call_tdelete lib i s1).1 = (call_tdelete lib i s2).1 /\
  agree (call_tdelete lib i s1).2 (call_tdelete lib i s2).2.
Proof.
  intros H. unfold call_tdelete.
  assert (Hd : data s1 = data s2) by apply H.
  assert (Hr : root s1 = root s2) by apply H.
  rewrite Hd, Hr. destruct (tdelete lib (data s2) i (root s2)) as [res t].
  split; [reflexivity |]. agree_fields.
Qed.

Lemma agree_for_range (body1 body2 : nat -> state (T := T) -> state (T := T)) :
  (forall i s1 s2, agree s1 s2 -> agree (body1 i s1) (body2 i s2)) ->
  forall count i s1 s2,
    agree s1 s2 ->
    agree (for_range count i body1 s1) (for_range count i body2 s2).
Proof.
  intros Hbody count. induction count as [| c IH]; intros i s1 s2 H; simpl.
  - exact H.
  - apply IH, Hbody, H.
Qed.

Lemma agree_populate_step (i : nat) (s1 s2 : state) :
  agree s1 s2 ->
  agree_outcome (populate_step lib e i s1)
                (populate_step lib (with_verify b e) i s2).
Proof.
  intros H. unfold populate_step, stress_mwc16, call_tsearch.
  cbn [data root alloc_calls emit set_data mwc16 node_alloc with_verify].
  assert (Hd : data s1 = data s2) by apply H.
  assert (Hr : root s1 = root s2) by apply H.
  assert (Hm : mwc_calls s1 = mwc_calls s2) by apply H.
  assert (Ha : alloc_calls s1 = alloc_calls s2) by apply H.
  rewrite Hd, Hr, Hm, Ha.
  destruct (tsearch lib _ i (root s2) _) as [[p |] t]; simpl.
  - agree_fields.
  - unfold cleanup. apply agree_for_range.
    + intros j a1 a2 Ha12. apply agree_call_tdelete, Ha12.
    + agree_fields.
Qed.

Lemma agree_populate (count i : nat) (s1 s2 : state) :
  agree s1 s2 ->
  agree_outcome (populate lib e count i s1)
                (populate lib (with_verify b e) count i s2).
Proof.
  revert i s1 s2. induction count as [| c IH]; intros i s1 s2 H; simpl.
  - exact H.
  - pose proof (agree_populate_step i s1 s2 H) as H1.
    destruct (populate_step lib e i s1) as [a1 | a1],
             (populate_step lib (with_verify b e) i s2) as [a2 | a2];
      simpl in H1; try contradiction.
    + apply IH, H1.
    + exact H1.
Qed.

Lemma agree_find_step (i : nat) (s1 s2 : state) :
  agree s1 s2 ->
  agree (find_step lib e i s1) (find_step lib (with_verify b e) i s2).
Proof.
  intros H. unfold find_step, call_tfind, verify_find.
  cbn [data root emit opt_flags_verify with_verify].
  assert (Hd : data s1 = data s2) by apply H.
  assert (Hr : root s1 = root s2) by apply H.
  rewrite Hd, Hr.
  destruct (opt_flags_verify e), b,
    (tfind lib (data s2) i (root s2)) as [p |];
    try destruct (deref (data s2) p =? deref (data s2) i)%Z;
    agree_fields.
Qed.

Lemma agree_find_phase (count i : nat) (s1 s2 : state) :
  agree s1 s2 ->
  agree (find_phase lib e count i s1)
        (find_phase lib (with_verify b e) count i s2).
Proof.
  revert i s1 s2. induction count as [| c IH]; intros i s1 s2 H; simpl;
    assert (Hf : flag_calls s1 = flag_calls s2) by apply H; rewrite Hf;
    destruct (stressing_flag e (flag_calls s2)); try agree_fields.
  apply IH, agree_find_step. agree_fields.
Qed.

Lemma agree_delete_step (i : nat) (s1 s2 : state) :
  agree s1 s2 ->
  agree (delete_step lib e i s1) (delete_step lib (with_verify b e) i s2).
Proof.
  intros H. unfold delete_step, call_tdelete, verify_delete.
  cbn [opt_flags_verify with_verify].
  assert (Hd : data s1 = data s2) by apply H.
  assert (Hr : root s1 = root s2) by apply H.
  rewrite Hd, Hr. destruct (tdelete lib (data s2) i (root s2)) as [res t].
  destruct (opt_flags_verify e), b, (bool_decide (res = None)); simpl;
    agree_fields.
Qed.

Lemma agree_cycle (s1 s2 : state) :
  agree s1 s2 ->
  agree_outcome (cycle lib e s1) (cycle lib (with_verify b e) s2).
Proof.
  intros H. unfold cycle, delete_phase.
  change (n (with_verify b e)) with (n e).
  assert (H0 : agree (set_root (null_root lib) s1) (set_root (null_root lib) s2))
    by agree_fields.
  pose proof (agree_populate (n e) 0 _ _ H0) as H1.
  destruct (populate lib e (n e) 0 (set_root (null_root lib) s1)) as [a1 | a1],
           (populate lib (with_verify b e) (n e) 0
              (set_root (null_root lib) s2)) as [a2 | a2];
    simpl in H1; try contradiction; [| exact H1].
  simpl.
  assert (H3 : agree
            (for_range (n e) 0 (delete_step lib e) (find_phase lib e (n e) 0 a1))
            (for_range (n e) 0 (delete_step lib (with_verify b e))
               (find_phase lib (with_verify b e) (n e) 0 a2))).
  { apply agree_for_range; [intros; apply agree_delete_step; assumption |].
    apply agree_find_phase, H1. }
  revert H3. generalize (for_range (n e) 0 (delete_step lib e)
                           (find_phase lib e (n e) 0 a1)).
  generalize (for_range (n e) 0 (delete_step lib (with_verify b e))
                (find_phase lib (with_verify b e) (n e) 0 a2)).
  intros x2 x1 H3. unfold inc_counter. agree_fields.
Qed.

Lemma agree_do_while (fuel : nat) (s1 s2 : state) :
  agree s1 s2 ->
  match do_while lib e fuel s1, do_while lib (with_verify b e) fuel s2 with
  | Some a1, Some a2 => agree a1 a2
  | None, None => True
  | _, _ => False
  end.
Proof.
  revert s1 s2. induction fuel as [| f IH]; intros s1 s2 H; simpl; [exact I |].
  pose proof (agree_cycle s1 s2 H) as H1.
  destruct (cycle lib e s1) as [a1 | a1],
           (cycle lib (with_verify b e) s2) as [a2 | a2];
    simpl in H1; try contradiction; [| exact H1].
  cbn [stressing with_verify].
  assert (Hk : keep_calls a1 = keep_calls a2) by apply H1. rewrite Hk.
  destruct (stressing e (keep_calls a2)).
  - apply IH. agree_fields.
  - agree_fields.
Qed.

End Flag.

End VerifyFlag.

(** X11. Lines 105-119 and 125-128.  The verify flag changes nothing but
    the messages handed to [pr_fail]: for every tree library, a run with
    the flag set one way and the run with it set the other way need the
    same number of cycles, return the same value, end with the same
    counter, buffer and tree, and make the same calls in the same order
    once the [pr_fail] messages are left out. *)
Theorem verification_only_observes
    {T : Type} (lib : search_h T) (e : env) (b : bool) (fuel : nat) :
  match stress_tsearch lib e fuel,
        stress_tsearch lib (with_verify b e) fuel with
  | Some (c1, s1), Some (c2, s2) =>
      c1 = c2 /\ counter s1 = counter s2 /\
      data s1 = data s2 /\ root s1 = root s2 /\
      without_failures (trace s1) = without_failures (trace s2)
  | None, None => True
  | _, _ => False
  end.
Proof.
  unfold stress_tsearch. cbn [calloc_ok with_verify].
  destruct (calloc_ok e).
  - pose proof (VerifyFlag.agree_do_while lib e b fuel
                  (started lib e) (started lib (with_verify b e))
                  (VerifyFlag.agree_refl _)) as H.
    destruct (do_while lib e fuel (started lib e)) as [a1 |],
             (do_while lib (with_verify b e) fuel
                (started lib (with_verify b e))) as [a2 |];
      try contradiction; [| exact I].
    destruct H as (Hd & Hr & Hc & _ & _ & _ & _ & Hl).
    split; [reflexivity |]. split; [exact Hc |]. split; [exact Hd |].
    split; [exact Hr |].
    unfold trace, without_failures. rewrite !VerifyFlag.omap_rev.
    fold (@without_failures). cbn [log emit stress_set_proc_state].
    rewrite !VerifyFlag.without_failures_keep by exact I.
    rewrite Hl. reflexivity.
  - repeat split.
Qed.

(** ** The ordered tree keeps the contract *)

Module TreeContract.
Import Tree.
Local Open Scope Z_scope.

Section WithBuffer.
Variable d : list Z.

(** What an insertion answers and what it does to the tree. *)
Lemma insert_result (t : node) (k : nat) (a : bool) :
  match insert d t k a with
  | (Some x, t') =>
      deref d x = deref d k /\
      ((x ∈ inorder t /\ t' = t) \/
       (x = k /\ forall y, y ∈ inorder t' <-> y = k \/ y ∈ inorder t))
  | (None, t') => a = false /\ t' = t
  end.
Proof.
  induction t as [| l IHl x0 r IHr]; simpl.
  - destruct a; [| auto]. split; [reflexivity |]. right.
    split; [reflexivity |]. intros y. set_solver.
  - TreeFacts.case_compar d k x0.
    + split; [congruence |]. left. split; [set_solver | reflexivity].
    + destruct (insert d l k a) as [[x |] l']; simpl.
      * destruct IHl as [Hval [[Hin ->] | [-> Hmem]]];
          (split; [exact Hval |]); [left | right].
        -- split; [set_solver | reflexivity].
        -- split; [reflexivity |]. intros y. simpl. specialize (Hmem y).
           set_solver.
      * destruct IHl as [-> ->]. auto.
    + destruct (insert d r k a) as [[x |] r']; simpl.
      * destruct IHr as [Hval [[Hin ->] | [-> Hmem]]];
          (split; [exact Hval |]); [left | right].
        -- split; [set_solver | reflexivity].
        -- split; [reflexivity |]. intros y. simpl. specialize (Hmem y).
           set_solver.
      * destruct IHr as [-> ->]. auto.
Qed.

(** In a search tree a failed lookup means the value is not there. *)
Lemma find_none (t : node) (k y : nat) :
  bst d t -> find d t k = None -> y ∈ inorder t -> deref d y <> deref d k.
Proof.
  induction t as [| l IHl x r IHr]; simpl; [set_solver |].
  intros (Hl & Hr & Hlx & Hrx). rewrite Forall_forall in Hlx, Hrx.
  TreeFacts.case_compar d k x; [discriminate | |]; intros Hf Hy;
    apply elem_of_app in Hy as [Hy | Hy];
    try (apply elem_of_cons in Hy as [-> | Hy]); auto;
    try lia;
    try (specialize (Hlx y Hy); lia); try (specialize (Hrx y Hy); lia).
Qed.

(** [delete] answers what [find] would. *)
Lemma delete_fst (t : node) (k : nat) : (delete d t k).1 = find d t k.
Proof.
  induction t as [| l IHl x r IHr]; simpl; [reflexivity |].
  TreeFacts.case_compar d k x; [reflexivity | |].
  - destruct (delete d l k); exact IHl.
  - destruct (delete d r k); exact IHr.
Qed.

(** [delete] leaves the keys with other values where they are. *)
Lemma delete_keeps (t : node) (k y : nat) :
  y ∈ inorder t -> deref d y <> deref d k -> y ∈ inorder (delete d t k).2.
Proof.
  induction t as [| l IHl x r IHr]; simpl; [auto |].
  intros Hy Hne. TreeFacts.case_compar d k x; simpl.
  - rewrite TreeFacts.delete_root_inorder.
    apply elem_of_app in Hy as [Hy | Hy]; [set_solver |].
    apply elem_of_cons in Hy as [-> | Hy]; [congruence | set_solver].
  - destruct (delete d l k) as [res l']; simpl in *. set_solver.
  - destruct (delete d r k) as [res r']; simpl in *. set_solver.
Qed.

End WithBuffer.

(** The ordered tree behaves as the stressor expects, with the search
    tree invariant as its good order and its in-order keys as what it
    holds. *)
Lemma tree_behaves : behaves ops.
Proof.
  exists bst, inorder. repeat apply conj.
  - intros d0. exact I.
  - intros t. split; [apply TreeFacts.inorder_nil | intros ->; reflexivity].
  - intros d0 d' t Hext. apply TreeFacts.bst_ext.
    intros y Hy. symmetry. apply Hext, Hy.
  - intros d0 k t a Hs. simpl.
    pose proof (insert_result d0 t k a) as H.
    pose proof (TreeFacts.insert_bst d0 t k a Hs) as Hb.
    destruct (insert d0 t k a) as [[x |] t']; [| exact H].
    destruct H as [Hv [[Hin ->] | [-> Hmem]]].
    + split; [exact Hs |]. split; [exact Hv |]. split; [auto |].
      intros y. split; [auto | intros [? | ->]; assumption].
    + split; [exact Hb |]. split; [exact Hv |]. split; [auto |].
      intros y. rewrite (Hmem y). tauto.
  - intros d0 k t Hs. simpl. destruct (find d0 t k) as [x |] eqn:E.
    + apply (TreeFacts.find_elem d0 t k x E).
    + intros y. apply find_none; assumption.
  - intros d0 k t Hs. simpl.
    pose proof (delete_fst d0 t k) as Hres.
    pose proof (TreeFacts.delete_bst d0 t k Hs) as Hb.
    destruct (delete d0 t k) as [res t'] eqn:E. simpl in *.
    assert (Ht' : t' = (delete d0 t k).2) by (rewrite E; reflexivity).
    split; [exact Hb |]. split.
    + intros y. rewrite Ht'. split.
      * intros Hy. split; [eapply TreeFacts.delete_elem, Hy |].
        exact (TreeFacts.delete_removes d0 t k y Hs Hy).
      * intros [Hy Hne]. apply delete_keeps; assumption.
    + subst res. split.
      * intros Hf y. apply find_none; assumption.
      * intros Hnone. destruct (find d0 t k) as [x |] eqn:Ef; [| reflexivity].
        apply TreeFacts.find_elem in Ef as [Hin Hv].
        exfalso. exact (Hnone x Hin Hv).
Qed.

End TreeContract.

(** ** The stressor over a library that keeps the contract *)

Module Contract.

Lemma abort_event_not_failure (ev : event) :
  is_abort_event ev -> is_not_failure ev.
Proof. destruct ev; simpl; auto. Qed.

(** In the supported range the elements of a populated buffer differ. *)
Lemma populated_values_distinct
    {T : Type} (lib : search_h T) (e : env) (s s1 : state) (j j' : nat) :
  (Z.of_nat (n e) <= MAX_TSEARCH_SIZE)%Z ->
  length (data s) = n e ->
  populate lib e (n e) 0 s = Done s1 ->
  j < n e -> j' < n e -> j <> j' ->
  deref (data s1) j <> deref (data s1) j'.
Proof.
  intros HN Hlen H Hj Hj' Hne Heq.
  change MAX_TSEARCH_SIZE with (2 ^ TSEARCH_SIZE_SHIFT)%Z in HN.
  rewrite (populate_buffer lib e s s1 Hlen H) in Heq.
  unfold deref in Heq.
  rewrite !list_lookup_fmap, !lookup_seq_lt in Heq by lia. simpl in Heq.
  apply (f_equal (fun z => z mod 2 ^ TSEARCH_SIZE_SHIFT)%Z) in Heq.
  unfold generated_key in Heq.
  rewrite !KeyFacts.tsearch_key_low_bits in Heq by lia. lia.
Qed.

Section Laws.
Context {T : Type}.
Variable lib : search_h T.
Variable e : env.
Variable sound : list Z -> T -> Prop.
Variable held : T -> list nat.

Hypothesis sound_null : forall d, sound d (null_root lib).
Hypothesis held_null : forall t, held t = [] <-> t = null_root lib.
Hypothesis sound_ext : forall d d' t,
  (forall y, y ∈ held t -> deref d' y = deref d y) -> sound d t -> sound d' t.
Hypothesis tsearch_law : forall d k t a, sound d t ->
  match tsearch lib d k t a with
  | (Some x, t') =>
      sound d t' /\ deref d x = deref d k /\ (x = k \/ x ∈ held t) /\
      (forall y, y ∈ held t' <-> y ∈ held t \/ y = x)
  | (None, t') => a = false /\ t' = t
  end.
Hypothesis tfind_law : forall d k t, sound d t ->
  match tfind lib d k t with
  | Some x => x ∈ held t /\ deref d x = deref d k
  | None => forall y, y ∈ held t -> deref d y <> deref d k
  end.
Hypothesis tdelete_law : forall d k t, sound d t ->
  match tdelete lib d k t with
  | (res, t') =>
      sound d t' /\
      (forall y, y ∈ held t' <-> y ∈ held t /\ deref d y <> deref d k) /\
      (res = None <-> forall y, y ∈ held t -> deref d y <> deref d k)
  end.

Lemma covers_start (s : state (T := T)) :
  covers sound held 0 (set_root (null_root lib) s).
Proof.
  split; [apply sound_null |].
  assert (Hh : held (null_root lib) = []) by (apply held_null; reflexivity).
  split; [simpl; rewrite Hh; intros y Hy; set_solver | intros j Hj; lia].
Qed.

(** *** Populating *)

Lemma populate_step_covers (i : nat) (s s' : state) :
  covers sound held i s -> populate_step lib e i s = Done s' ->
  covers sound held (S i) s'.
Proof.
  intros (Hs & Hlt & Hpres) H.
  destruct (StressorFacts.populate_step_done lib e i s s' H)
    as (Hd & _ & _ & _ & _ & _ & p & Hts & _).
  assert (Hsame : forall y, y < i -> deref (data s') y = deref (data s) y).
  { intros y Hy. rewrite Hd. apply StressorFacts.deref_insert_ne. lia. }
  assert (Hs' : sound (data s') (root s)).
  { eapply sound_ext; [| exact Hs]. intros y Hy. apply Hsame, Hlt, Hy. }
  pose proof (tsearch_law (data s') i (root s)
                (node_alloc e (alloc_calls s)) Hs') as L.
  rewrite Hts in L. destruct L as (Hs1 & Hv & Hp & Hmem).
  assert (Hpi : p < S i)
    by (destruct Hp as [-> | Hp]; [lia |]; apply Hlt in Hp; lia).
  split; [exact Hs1 |]. split.
  - intros y Hy.
    apply Hmem in Hy as [Hy | ->]; [apply Hlt in Hy; lia | exact Hpi].
  - intros j Hj. destruct (decide (j = i)) as [-> | Hne].
    + exists p. split; [apply Hmem; auto | exact Hv].
    + destruct (Hpres j) as (x & Hx & Hxv); [lia |].
      exists x. split; [apply Hmem; auto |].
      rewrite (Hsame x) by (apply Hlt, Hx).
      rewrite (Hsame j) by lia. exact Hxv.
Qed.

Lemma populate_covers (count i : nat) (s s' : state) :
  covers sound held i s -> populate lib e count i s = Done s' ->
  covers sound held (i + count) s'.
Proof.
  revert i s. induction count as [| c IH]; intros i s Hc; simpl.
  - intros [= <-]. rewrite Nat.add_0_r. exact Hc.
  - destruct (populate_step lib e i s) as [s1 | s1] eqn:E1; [| discriminate].
    intros H. rewrite Nat.add_succ_r.
    apply (IH (S i) s1); [eapply populate_step_covers; eassumption | exact H].
Qed.

(** *** Taking the keys out *)

Lemma for_range_tdelete (body : nat -> state (T := T) -> state (T := T)) :
  (forall i s, data (body i s) = data s /\
               root (body i s) = (tdelete lib (data s) i (root s)).2) ->
  forall count i s,
    sound (data s) (root s) ->
    let s' := for_range count i body s in
    data s' = data s /\ sound (data s') (root s') /\
    forall y, y ∈ held (root s') <->
      y ∈ held (root s) /\
      forall k, i <= k < i + count -> deref (data s) y <> deref (data s) k.
Proof.
  intros Hbody count. induction count as [| c IH]; intros i s Hs; simpl.
  - split; [reflexivity |]. split; [exact Hs |].
    intros y. split; [intros Hy; split; [exact Hy | intros k Hk; lia] | tauto].
  - destruct (Hbody i s) as [Hd1 Hr1].
    pose proof (tdelete_law (data s) i (root s) Hs) as L.
    destruct (tdelete lib (data s) i (root s)) as [res t']. simpl in Hr1.
    destruct L as (Hs1 & Hmem & _).
    assert (Hs1' : sound (data (body i s)) (root (body i s)))
      by (rewrite Hd1, Hr1; exact Hs1).
    destruct (IH (S i) (body i s) Hs1') as (Hd2 & Hs2 & Hmem2).
    split; [rewrite Hd2; exact Hd1 |]. split; [exact Hs2 |].
    intros y. rewrite Hmem2, Hr1, Hmem, Hd1. split.
    + intros [[Hy Hi] Hk]. split; [exact Hy |].
      intros k Hrange. destruct (decide (k = i)) as [-> | Hne];
        [exact Hi | apply Hk; lia].
    + intros [Hy Hk].
      split; [split; [exact Hy | apply Hk; lia] |].
      intros k Hrange. apply Hk. lia.
Qed.

Lemma delete_step_body (i : nat) (s : state) :
  data (delete_step lib e i s) = data s /\
  root (delete_step lib e i s) = (tdelete lib (data s) i (root s)).2.
Proof.
  destruct (StressorFacts.delete_step_spec lib e i s) as ((Hd & _) & Hr & _).
  auto.
Qed.

Lemma call_tdelete_body (i : nat) (s : state) :
  data (call_tdelete lib i s).2 = data s /\
  root (call_tdelete lib i s).2 = (tdelete lib (data s) i (root s)).2.
Proof.
  unfold call_tdelete. destruct (tdelete lib (data s) i (root s)) as [res t].
  split; reflexivity.
Qed.

(** Deleting the elements below [m] empties a tree that holds pointers
    to elements below [m] only. *)
Lemma for_range_drains (body : nat -> state (T := T) -> state (T := T)) :
  (forall i s, data (body i s) = data s /\
               root (body i s) = (tdelete lib (data s) i (root s)).2) ->
  forall m s,
    sound (data s) (root s) ->
    (forall y, y ∈ held (root s) -> y < m) ->
    root (for_range m 0 body s) = null_root lib.
Proof.
  intros Hbody m s Hs Hlt.
  destruct (for_range_tdelete body Hbody m 0 s Hs) as (_ & _ & Hmem).
  apply held_null.
  destruct (held (root (for_range m 0 body s))) as [| y l] eqn:E;
    [reflexivity |].
  destruct (proj1 (Hmem y)) as [Hy Hk]; [set_solver |]. exfalso.
  apply (Hk y); [pose proof (Hlt y Hy); lia | reflexivity].
Qed.

Lemma populate_step_drained (i : nat) (s s' : state) :
  covers sound held i s -> populate_step lib e i s = Aborted s' ->
  root s' = null_root lib.
Proof.
  intros (Hs & Hlt & _).
  unfold populate_step, stress_mwc16, call_tsearch.
  cbn [data root alloc_calls emit set_data].
  set (d' := <[i := _]> (data s)).
  assert (Hs' : sound d' (root s)).
  { eapply sound_ext; [| exact Hs]. intros y Hy.
    apply StressorFacts.deref_insert_ne. apply Hlt in Hy. lia. }
  pose proof (tsearch_law d' i (root s) (node_alloc e (alloc_calls s)) Hs')
    as L.
  destruct (tsearch lib d' i (root s) _) as [[p |] t]; [discriminate |].
  destruct L as [_ ->]. intros [= <-].
  apply (for_range_drains _ (call_tdelete_body)); [exact Hs' | exact Hlt].
Qed.

Lemma populate_drained (count i : nat) (s s' : state) :
  covers sound held i s -> populate lib e count i s = Aborted s' ->
  root s' = null_root lib.
Proof.
  revert i s. induction count as [| c IH]; intros i s Hc; simpl;
    [discriminate |].
  destruct (populate_step lib e i s) as [s1 | s1] eqn:E1.
  - apply (IH (S i) s1). eapply populate_step_covers; eassumption.
  - intros [= <-]. eapply populate_step_drained; eassumption.
Qed.

(** Every pass through the loop body leaves the tree empty, whether it
    completes or leaves through [goto abort]. *)
Lemma cycle_drained (s : state) :
  match cycle lib e s with
  | Done s' | Aborted s' => root s' = null_root lib
  end.
Proof.
  unfold cycle.
  pose proof (covers_start s) as Hc.
  destruct (populate lib e (n e) 0 (set_root (null_root lib) s))
    as [s1 | s1] eqn:E1; [| eapply populate_drained; eassumption].
  destruct (populate_covers _ _ _ _ Hc E1) as (Hs & Hlt & _).
  destruct (StressorFacts.find_phase_frame lib e (n e) 0 s1)
    as (Hd2 & Hr2 & _).
  unfold delete_phase. simpl.
  apply (for_range_drains _ (delete_step_body)); rewrite ?Hd2, Hr2; assumption.
Qed.

Lemma do_while_drained (fuel : nat) (s s' : state) :
  do_while lib e fuel s = Some s' -> root s' = null_root lib.
Proof.
  revert s. induction fuel as [| f IH]; intros s; simpl; [discriminate |].
  pose proof (cycle_drained s) as H1.
  destruct (cycle lib e s) as [s1 | s1]; [| intros [= <-]; exact H1].
  destruct (stressing e (keep_calls s1)).
  - apply IH.
  - intros [= <-]. exact H1.
Qed.

(** *** Nothing to report *)

Lemma find_step_quiet (i : nat) (s : state) :
  sound (data s) (root s) -> present held s i ->
  reaches is_not_failure s (find_step lib e i s).
Proof.
  intros Hs (x & Hx & Hxv).
  unfold find_step, call_tfind, verify_find.
  destruct (opt_flags_verify e); [| CallKinds.by_log].
  pose proof (tfind_law (data s) i (root s) Hs) as L.
  destruct (tfind lib (data s) i (root s)) as [p |].
  - cbn [data emit]. destruct L as [_ ->]. rewrite Z.eqb_refl.
    CallKinds.by_log.
  - exfalso. exact (L x Hx Hxv).
Qed.

Lemma find_phase_quiet (count i : nat) (s : state) :
  sound (data s) (root s) ->
  (forall j, i <= j < i + count -> present held s j) ->
  reaches is_not_failure s (find_phase lib e count i s).
Proof.
  revert i s. induction count as [| c IH]; intros i s Hs Hp; simpl.
  - destruct (stressing_flag e (flag_calls s)); CallKinds.by_log.
  - destruct (stressing_flag e (flag_calls s)); [| CallKinds.by_log].
    set (s0 := emit _ _).
    assert (H0 : reaches is_not_failure s s0) by CallKinds.by_log.
    destruct (StressorFacts.find_step_spec lib e i s0) as ((Hd & _) & Hr & _).
    eapply CallKinds.reaches_trans; [exact H0 |].
    apply (CallKinds.reaches_trans _ _ (find_step lib e i s0));
      [apply find_step_quiet; [exact Hs | apply Hp; lia] |].
    apply IH.
    + rewrite Hd, Hr. exact Hs.
    + intros j Hj. unfold present. rewrite Hd, Hr. apply Hp. lia.
Qed.

Lemma delete_step_quiet (i : nat) (s : state) :
  sound (data s) (root s) -> present held s i ->
  reaches is_not_failure s (delete_step lib e i s).
Proof.
  intros Hs (x & Hx & Hxv).
  unfold delete_step, call_tdelete, verify_delete.
  pose proof (tdelete_law (data s) i (root s) Hs) as L.
  destruct (tdelete lib (data s) i (root s)) as [res t].
  destruct L as (_ & _ & Hnone).
  destruct res as [p |].
  - rewrite bool_decide_eq_false_2 by discriminate. rewrite andb_false_r.
    CallKinds.by_log.
  - exfalso. exact (proj1 Hnone eq_refl x Hx Hxv).
Qed.

Lemma delete_range_quiet (m count i : nat) (s : state) :
  i + count <= m ->
  (forall j j', j < m -> j' < m -> j <> j' ->
     deref (data s) j <> deref (data s) j') ->
  sound (data s) (root s) ->
  (forall j, i <= j < i + count -> present held s j) ->
  reaches is_not_failure s (for_range count i (delete_step lib e) s).
Proof.
  revert i s. induction count as [| c IH]; intros i s Hm Hdist Hs Hp; simpl.
  - apply CallKinds.reaches_refl.
  - apply (CallKinds.reaches_trans _ _ (delete_step lib e i s));
      [apply delete_step_quiet; [exact Hs | apply Hp; lia] |].
    destruct (delete_step_body i s) as [Hd Hr].
    pose proof (tdelete_law (data s) i (root s) Hs) as L.
    destruct (tdelete lib (data s) i (root s)) as [res t']. simpl in Hr.
    destruct L as (Hs1 & Hmem & _).
    apply IH; [lia | rewrite Hd; exact Hdist | rewrite Hd, Hr; exact Hs1 |].
    intros j Hj. destruct (Hp j) as (x & Hx & Hxv); [lia |].
    exists x. rewrite Hd, Hr. split; [| exact Hxv].
    apply Hmem. split; [exact Hx |]. rewrite Hxv. apply Hdist; lia.
Qed.

(** With distinct keys, a pass through the loop body has nothing to
    report. *)
Lemma cycle_quiet (s : state) :
  (Z.of_nat (n e) <= MAX_TSEARCH_SIZE)%Z ->
  length (data s) = n e ->
  match cycle lib e s with
  | Done s' => reaches is_not_failure s s' /\ length (data s') = n e
  | Aborted s' => reaches is_not_failure s s'
  end.
Proof.
  intros HN Hlen.
  pose proof (StressorFacts.cycle_done lib e s) as Hdone.
  unfold cycle in *.
  pose proof (covers_start s) as Hc.
  set (s0 := set_root (null_root lib) s) in *.
  assert (H0 : reaches is_not_failure s s0) by CallKinds.by_log.
  assert (H1 : match populate lib e (n e) 0 s0 with
               | Done s' | Aborted s' => reaches is_not_failure s0 s'
               end)
    by (apply CallKinds.populate_reaches; intros; exact I).
  destruct (populate lib e (n e) 0 s0) as [s1 | s1] eqn:E1;
    [| exact (CallKinds.reaches_trans _ _ _ _ H0 H1)].
  destruct (Hdone _ eq_refl) as (_ & _ & _ & _ & Hl & _).
  split; [| rewrite Hl; exact Hlen].
  destruct (populate_covers _ _ _ _ Hc E1) as (Hs & Hlt & Hpres).
  destruct (StressorFacts.find_phase_frame lib e (n e) 0 s1)
    as (Hd2 & Hr2 & _).
  eapply CallKinds.reaches_trans; [exact H0 |].
  eapply CallKinds.reaches_trans; [exact H1 |].
  apply (CallKinds.reaches_trans _ _ (find_phase lib e (n e) 0 s1));
    [apply find_phase_quiet; [exact Hs | intros j Hj; apply Hpres; lia] |].
  apply (CallKinds.reaches_trans _ _
           (delete_phase lib e (find_phase lib e (n e) 0 s1)));
    [| CallKinds.by_log].
  unfold delete_phase.
  apply (delete_range_quiet (n e)); [lia | | |].
  - rewrite Hd2. intros j j' Hj Hj'.
    apply (populated_values_distinct lib e s0 s1); assumption.
  - rewrite Hd2, Hr2. exact Hs.
  - intros j Hj. unfold present. rewrite Hd2, Hr2. apply Hpres. lia.
Qed.

Lemma do_while_quiet (fuel : nat) (s s' : state) :
  (Z.of_nat (n e) <= MAX_TSEARCH_SIZE)%Z ->
  length (data s) = n e ->
  do_while lib e fuel s = Some s' -> reaches is_not_failure s s'.
Proof.
  intros HN. revert s.
  induction fuel as [| f IH]; intros s Hlen; simpl; [discriminate |].
  pose proof (cycle_quiet s HN Hlen) as H1.
  destruct (cycle lib e s) as [s1 | s1]; [| intros [= <-]; exact H1].
  destruct H1 as [H1 Hl1].
  destruct (stressing e (keep_calls s1)).
  - intros H. eapply CallKinds.reaches_trans; [exact H1 |].
    eapply CallKinds.reaches_trans; [| apply IH; [| exact H]; exact Hl1].
    CallKinds.by_log.
  - intros [= <-]. eapply CallKinds.reaches_trans; [exact H1 |].
    CallKinds.by_log.
Qed.

End Laws.

End Contract.

(** ** Runs over a library that keeps the contract *)

(** X12. Lines 89-129.  Over a tree library that keeps the contract of
    [<search.h>], a run with at most 2^22 elements hands nothing to
    [pr_fail], with verification on as well: every lookup finds a node
    with the value looked up and every [tdelete] finds its key, in every
    cycle, because the keys of a cycle are distinct. *)
Theorem no_failure_reported_in_range
    {T : Type} (lib : search_h T) (e : env) (fuel : nat)
    (c : exit_code) (s : state) :
  behaves lib ->
  calloc_ok e = true ->
  (Z.of_nat (n e) <= MAX_TSEARCH_SIZE)%Z ->
  stress_tsearch lib e fuel = Some (c, s) ->
  Forall is_not_failure (trace s).
Proof.
  intros (sound & held & Hnull & Hempty & Hext & Hts & Htf & Htd) Hc HN H.
  destruct (loop_of_run lib e fuel c s Hc H) as (s1 & Hrun & Ht).
  assert (Hr : reaches is_not_failure (started lib e) s1).
  { eapply (Contract.do_while_quiet lib e sound held);
      first [eassumption | apply length_replicate]. }
  destruct Hr as (mid & Hmid & Hall).
  rewrite Ht, Hmid.
  change (trace (started lib e))
    with [Ev_calloc (n e) true; Ev_set_proc_state STRESS_STATE_RUN].
  apply Forall_app; split;
    [apply Forall_app; split; [repeat constructor | exact Hall]
    | repeat constructor].
Qed.

Lemma no_failure_reported_in_range_witness :
  let e := Scenarios.two_cycles in
  exists s,
    stress_tsearch Tree.ops e 2 = Some (EXIT_SUCCESS, s) /\
    opt_flags_verify e = true /\
    Forall is_not_failure (trace s).
Proof.
  intros e.
  destruct (StressorFacts.do_while_permitted Tree.ops e 2 2 (started Tree.ops e))
    as (s1 & _ & Hrun & _);
    [apply StressorFacts.tree_delivers | lia | lia | intros k; reflexivity
     | intros k Hk; apply bool_decide_eq_true_2; simpl; lia | reflexivity |].
  pose proof (run_of_loop Tree.ops e 2 s1 eq_refl Hrun) as H.
  eexists. split; [exact H |]. split; [reflexivity |].
  apply (no_failure_reported_in_range Tree.ops e 2 EXIT_SUCCESS _
           TreeContract.tree_behaves eq_refl);
    [vm_compute; discriminate | exact H].
Defined.

(** X13. Lines 86-99 and 122-129.  Over a tree library that keeps the
    contract of [<search.h>], the tree is empty whenever [stress_tsearch]
    returns: a cycle that completes has deleted what it inserted, also
    when keys collide, and a cycle abandoned for lack of a node has taken
    out the keys inserted before the failure, so no node outlives the
    run. *)
Theorem tree_empty_on_return
    {T : Type} (lib : search_h T) (e : env) (fuel : nat)
    (c : exit_code) (s : state) :
  behaves lib ->
  stress_tsearch lib e fuel = Some (c, s) ->
  root s = null_root lib.
Proof.
  intros (sound & held & Hnull & Hempty & Hext & Hts & Htf & Htd).
  unfold stress_tsearch.
  destruct (calloc_ok e); [| intros [= _ <-]; reflexivity].
  destruct (do_while lib e fuel (started lib e)) as [s1 |] eqn:Hrun;
    [| discriminate].
  intros [= _ <-]. simpl.
  eapply (Contract.do_while_drained lib e sound held); eassumption.
Qed.

Lemma tree_empty_on_return_witness :
  let e := Scenarios.fourth_node_missing in
  exists c s,
    stress_tsearch Tree.ops e 1 = Some (c, s) /\ root s = Tree.Nil.
Proof.
  intros e.
  destruct (stress_tsearch Tree.ops e 1) as [[c s] |] eqn:E;
    [| vm_compute in E; discriminate].
  exists c, s. split; [reflexivity |].
  exact (tree_empty_on_return Tree.ops e 1 c s TreeContract.tree_behaves E).
Defined.
